(** * Nested liquid-tag editor: the LiquidView controller and the arrow handlers

    A shallow embedding of [src/example/liquid/index.js].  The file has two
    layers:

    - [Module PM]: the part of the host editing framework (prosemirror-model,
      prosemirror-transform, prosemirror-state) that the controller calls,
      for the documents the liquid schema allows: a node whose content is
      [text*], i.e. a fragment of text nodes with marks.  Positions are
      JavaScript integers ([Z]); text is a list of code units.
    - [Module LiquidView] and [Module Arrow]: the controller methods
      ([length], [dispatchInner], [update], [maybeEscape], [maybeRemove]) and
      the outer key commands ([arrowHandler], [isNearInlineBlock]), written
      with explicit state passing, an event trace for the calls made on the
      outer view, and an exception result.

    The inner document is concrete.  The outer document is reached through
    the host interfaces [PM.Document] and [Arrow.Navigation]; [Module Sample]
    gives one small document that implements them. *)

From Stdlib Require Import ZArith Ascii String List Lia.
From stdpp Require Import base tactics option list strings gmap.

Local Open Scope Z_scope.

(** ** Exceptions *)

Inductive Error : Type :=
| RangeError      (* position out of range, mismatched transaction *)
| TransformError  (* Transform.step: the step failed to apply *)
| TypeError.      (* property access on null / undefined *)

Inductive result (A : Type) : Type :=
| Ok (a : A)
| Throw (e : Error).
Arguments Ok {A} a.
Arguments Throw {A} e.

Definition rbind {A B} (r : result A) (k : A -> result B) : result B :=
  match r with
  | Ok a => k a
  | Throw e => Throw e
  end.

Notation "'do' x <- c1 ; c2" := (rbind c1 (fun x => c2))
  (at level 60, x name, c1 at next level, right associativity).

Module PM.

(** ** Marks, text nodes, fragments *)

Definition Attrs := list (string * string).

Record Mark := { mark_type : string; mark_attrs : Attrs }.

#[global] Instance Mark_eq_dec : EqDecision Mark.
Proof. solve_decision. Defined.

(** A text node: [text] is never modified in place, [withText] copies. *)
Record TextNode := { text : list ascii; marks : list Mark }.

#[global] Instance TextNode_eq_dec : EqDecision TextNode.
Proof. solve_decision. Defined.

Definition withText (n : TextNode) (t : list ascii) : TextNode :=
  {| text := t; marks := marks n |}.

(** [Fragment]: the child array of a node whose content is [text*]. *)
Definition Fragment := list TextNode.

(** A node that holds text content (the liquid node, and the inner
    document, which is the same node).  Nodes of another type passed to
    [update] are only inspected for their markup. *)
Record Node := {
  ntype : string;
  attrs : Attrs;
  nmarks : list Mark;
  content : Fragment
}.

#[global] Instance Node_eq_dec : EqDecision Node.
Proof. solve_decision. Defined.

(** [TextNode.nodeSize] is [text.length]. *)
Definition textSize (n : TextNode) : Z := Z.of_nat (length (text n)).

(** [Fragment.size]: the sum of the children's sizes. *)
Fixpoint fragSize (f : Fragment) : Z :=
  match f with
  | [] => 0
  | c :: f' => textSize c + fragSize f'
  end.

(** [Node.nodeSize] of a non-leaf node: [2 + content.size]. *)
Definition nodeSize (n : Node) : Z := 2 + fragSize (content n).

(** [sameMarkup] on text nodes: same type, no attrs, [Mark.sameSet]. *)
Definition sameMarkupT (a b : TextNode) : bool := bool_decide (marks a = marks b).

(** [Node.sameMarkup]: type, attributes and marks agree. *)
Definition sameMarkup (a b : Node) : bool :=
  bool_decide (ntype a = ntype b) && bool_decide (attrs a = attrs b)
  && bool_decide (nmarks a = nmarks b).

(** [Node.copy(content)]. *)
Definition copy (n : Node) (c : Fragment) : Node :=
  {| ntype := ntype n; attrs := attrs n; nmarks := nmarks n; content := c |}.

(** ** Content diffing (prosemirror-model, diff.js) *)

(** The character loop of [findDiffStart]:
    [for (let j = 0; childA.text[j] == childB.text[j]; j++) pos++].
    It is entered only when the two texts differ, so it stops at the latest
    where one text ends. *)
Fixpoint diffPrefix (a b : list ascii) : Z :=
  match a, b with
  | x :: a', y :: b' => if bool_decide (x = y) then 1 + diffPrefix a' b' else 0
  | _, _ => 0
  end.

(** [findDiffStart(a, b, pos)].  The [childA == childB] shortcut (same
    object) advances by the child's size, as the general path does for two
    equal text nodes. *)
Fixpoint findDiffStart (a b : Fragment) (pos : Z) : option Z :=
  match a, b with
  | [], [] => None
  | [], _ :: _ | _ :: _, [] => Some pos
  | childA :: a', childB :: b' =>
      if negb (sameMarkupT childA childB) then Some pos
      else if negb (bool_decide (text childA = text childB))
           then Some (pos + diffPrefix (text childA) (text childB))
           else findDiffStart a' b' (pos + textSize childA)
  end.

(** The character loop of [findDiffEnd], on the two texts read from their
    last code unit: [while (same < minSize && a[la-same-1] == b[lb-same-1])]. *)
Fixpoint sameSuffixRev (ra rb : list ascii) : Z :=
  match ra, rb with
  | x :: ra', y :: rb' => if bool_decide (x = y) then 1 + sameSuffixRev ra' rb' else 0
  | _, _ => 0
  end.

Definition sameSuffix (a b : list ascii) : Z := sameSuffixRev (rev a) (rev b).

(** [findDiffEnd(a, b, posA, posB)] walks both child arrays from the last
    child; [ra] and [rb] are the arrays in reverse order. *)
Fixpoint findDiffEndRev (ra rb : list TextNode) (posA posB : Z) : option (Z * Z) :=
  match ra, rb with
  | [], [] => None
  | [], _ :: _ | _ :: _, [] => Some (posA, posB)
  | childA :: ra', childB :: rb' =>
      let size := textSize childA in
      if negb (sameMarkupT childA childB) then Some (posA, posB)
      else if negb (bool_decide (text childA = text childB))
           then let same := sameSuffix (text childA) (text childB) in
                Some (posA - same, posB - same)
           else findDiffEndRev ra' rb' (posA - size) (posB - size)
  end.

(** [Fragment.findDiffEnd(other, pos = this.size, otherPos = other.size)]. *)
Definition findDiffEnd (a b : Fragment) : option (Z * Z) :=
  findDiffEndRev (rev a) (rev b) (fragSize a) (fragSize b).

(** ** Cutting and joining fragments (prosemirror-model, fragment.js) *)

(** [String.slice(from, to)] for non-negative indexes. *)
Definition jsSlice (t : list ascii) (from to : Z) : list ascii :=
  take (Z.to_nat (to - from)) (drop (Z.to_nat from) t).

(** [TextNode.cut(from, to)]. *)
Definition textCut (n : TextNode) (from to : Z) : TextNode :=
  if bool_decide (from = 0) && bool_decide (to = textSize n) then n
  else withText n (jsSlice (text n) from to).

(** The loop of [Fragment.cut]: [for (i = 0, pos = 0; pos < to; i++)].
    Callers resolve [to] against the fragment first, so the children do not
    run out while [pos < to]. *)
Fixpoint cutLoop (cs : list TextNode) (pos from to : Z) : Fragment :=
  match cs with
  | [] => []
  | child :: cs' =>
      if bool_decide (pos < to) then
        let end_ := pos + textSize child in
        let rest := cutLoop cs' end_ from to in
        if bool_decide (end_ > from) then
          (if bool_decide (pos < from) || bool_decide (end_ > to)
           then textCut child (Z.max 0 (from - pos)) (Z.min (textSize child) (to - pos))
           else child) :: rest
        else rest
      else []
  end.

(** [Fragment.cut(from, to = this.size)]. *)
Definition cut (f : Fragment) (from to : Z) : Fragment :=
  if bool_decide (from = 0) && bool_decide (to = fragSize f) then f
  else if bool_decide (to > from) then cutLoop f 0 from to
  else [].

(** [Fragment.append(other)]: the last child of [this] and the first child
    of [other] are joined when both are text with the same markup. *)
Definition append (a b : Fragment) : Fragment :=
  if bool_decide (fragSize b = 0) then a
  else if bool_decide (fragSize a = 0) then b
  else match rev a, b with
       | last :: ra, first :: b' =>
           if sameMarkupT last first
           then rev ra ++ withText last (text last ++ text first) :: b'
           else a ++ b
       | _, _ => a ++ b
       end.

(** ** Slices and resolved positions *)

(** A slice of text content; its open depths are 0 on both sides. *)
Record Slice := { slice_content : Fragment }.

#[global] Instance Slice_eq_dec : EqDecision Slice.
Proof. solve_decision. Defined.

Definition Slice_empty : Slice := {| slice_content := [] |}.

Definition sliceSize (s : Slice) : Z := fragSize (slice_content s).

(** The loop of [Fragment.findIndex(pos)] (round = -1), entered when
    [0 < pos < size]. *)
Fixpoint findIndexLoop (cs : list TextNode) (i : nat) (curPos pos : Z) : nat * Z :=
  match cs with
  | [] => (i, curPos)
  | cur :: cs' =>
      let end_ := curPos + textSize cur in
      if bool_decide (end_ >= pos) then
        if bool_decide (end_ = pos) then (S i, end_) else (i, curPos)
      else findIndexLoop cs' (S i) end_ pos
  end.

Definition findIndex (f : Fragment) (pos : Z) : nat * Z :=
  if bool_decide (pos = 0) then (0%nat, pos)
  else if bool_decide (pos = fragSize f) then (length f, pos)
  else findIndexLoop f 0 0 pos.

(** A position resolved in a document of text content: depth 0, the index
    into the child array and the offset at which that child starts. *)
Record ResolvedPos := { rpos : Z; rindex : nat; roffset : Z }.

Definition textOffset (r : ResolvedPos) : Z := rpos r - roffset r.

(** [Node.resolve(pos)]: a position outside [0 .. content.size] throws. *)
Definition resolve (doc : Node) (pos : Z) : result ResolvedPos :=
  if negb (bool_decide (pos >= 0) && bool_decide (pos <= fragSize (content doc)))
  then Throw RangeError
  else let '(i, off) := findIndex (content doc) pos in
       Ok {| rpos := pos; rindex := i; roffset := off |}.

(** [$pos.nodeAfter]. *)
Definition nodeAfter (f : Fragment) (r : ResolvedPos) : option TextNode :=
  match f !! rindex r with
  | None => None
  | Some child =>
      if bool_decide (textOffset r = 0) then Some child
      else Some (textCut child (textOffset r) (textSize child))
  end.

(** [$pos.nodeBefore]. *)
Definition nodeBefore (f : Fragment) (r : ResolvedPos) : option TextNode :=
  if bool_decide (textOffset r = 0)
  then match rindex r with
       | O => None
       | S i => f !! i
       end
  else match f !! rindex r with
       | None => None
       | Some child => Some (textCut child 0 (textOffset r))
       end.

(** [Node.slice(from, to)] on text content. *)
Definition nodeSlice (n : Node) (from to : Z) : result Slice :=
  if bool_decide (from = to) then Ok Slice_empty
  else do _ <- resolve n from;
       do _ <- resolve n to;
       Ok {| slice_content := cut (content n) from to |}.

(** ** Replacing a range (prosemirror-model, replace.js) *)

(** [addNode(child, target)]: push, or join with the last text node. *)
Definition addNode (child : TextNode) (target : list TextNode) : list TextNode :=
  match rev target with
  | last :: rt =>
      if sameMarkupT child last
      then rev rt ++ [withText child (text last ++ text child)]
      else target ++ [child]
  | [] => [child]
  end.

Definition addNodeOpt (child : option TextNode) (target : list TextNode) :=
  match child with
  | Some c => addNode c target
  | None => target
  end.

Definition addNodes (cs target : list TextNode) : list TextNode :=
  foldl (fun t c => addNode c t) target cs.

(** [addRange($start, $end, 0, target)] in a document of depth 0. *)
Definition addRange (f : Fragment) (rstart rend : option ResolvedPos)
    (target : list TextNode) : list TextNode :=
  let endIndex := match rend with Some e => rindex e | None => length f end in
  let '(startIndex, target) :=
    match rstart with
    | Some s =>
        if bool_decide (textOffset s = 0) then (rindex s, target)
        else (S (rindex s), addNodeOpt (nodeAfter f s) target)
    | None => (0%nat, target)
    end in
  let target := addNodes (take (endIndex - startIndex) (drop startIndex f)) target in
  match rend with
  | Some e =>
      if bool_decide (textOffset e = 0) then target
      else addNodeOpt (nodeBefore f e) target
  | None => target
  end.

(** [replaceTwoWay($from, $to, 0)]. *)
Definition replaceTwoWay (f : Fragment) (rfrom rto : ResolvedPos) : Fragment :=
  addRange f (Some rto) None (addRange f None (Some rfrom) []).

(** [Node.replace(from, to, slice)]: both ends resolve at depth 0, so
    [replaceOuter] takes the empty-slice branch or the flat branch; [close]
    accepts any text content for a [text*] node. *)
Definition replace (doc : Node) (from to : Z) (slice : Slice) : result Node :=
  do rfrom <- resolve doc from;
  do rto <- resolve doc to;
  if bool_decide (sliceSize slice = 0)
  then Ok (copy doc (replaceTwoWay (content doc) rfrom rto))
  else Ok (copy doc (append (append (cut (content doc) 0 (rpos rfrom)) (slice_content slice))
                            (cut (content doc) (rpos rto) (fragSize (content doc))))).

(** ** Steps and position maps (prosemirror-transform) *)

(** The steps that edits of text content produce: replace [from, to) by a
    slice. *)
Record Step := ReplaceStep { step_from : Z; step_to : Z; step_slice : Slice }.

#[global] Instance Step_eq_dec : EqDecision Step.
Proof. solve_decision. Defined.

(** [ReplaceStep.apply(doc)]. *)
Definition stepApplyNode (s : Step) (doc : Node) : result Node :=
  replace doc (step_from s) (step_to s) (step_slice s).

(** A [StepMap] holds its ranges as triples (start, oldSize, newSize). *)
Definition StepMap := list (Z * Z * Z).

Definition DEL_BEFORE : Z := 1.
Definition DEL_AFTER : Z := 2.
Definition DEL_ACROSS : Z := 4.
Definition DEL_SIDE : Z := 8.

Record MapResult := { mr_pos : Z; delInfo : Z }.

Definition deletedAcross (r : MapResult) : bool := Z.land (delInfo r) DEL_ACROSS >? 0.

(** [StepMap._map(pos, assoc, false)] of a map that is not inverted. *)
Fixpoint mapLoop (ranges : StepMap) (diff pos assoc : Z) : MapResult :=
  match ranges with
  | [] => {| mr_pos := pos + diff; delInfo := 0 |}
  | (start, oldSize, newSize) :: rest =>
      if start >? pos then {| mr_pos := pos + diff; delInfo := 0 |}
      else
        let end_ := start + oldSize in
        if pos <=? end_ then
          let side := if oldSize =? 0 then assoc
                      else if pos =? start then -1
                      else if pos =? end_ then 1 else assoc in
          let res := start + diff + (if side <? 0 then 0 else newSize) in
          let del := if pos =? start then DEL_AFTER
                     else if pos =? end_ then DEL_BEFORE else DEL_ACROSS in
          let del := if (if assoc <? 0 then negb (pos =? start) else negb (pos =? end_))
                     then Z.lor del DEL_SIDE else del in
          {| mr_pos := res; delInfo := del |}
        else mapLoop rest (diff + newSize - oldSize) pos assoc
  end.

Definition mapResult (m : StepMap) (pos assoc : Z) : MapResult := mapLoop m 0 pos assoc.

(** [StepMap.map(pos, assoc)]: the position of the result. *)
Definition mapPos (m : StepMap) (pos assoc : Z) : Z := mr_pos (mapResult m pos assoc).

(** [StepMap.offset(n)]. *)
Definition offset (n : Z) : StepMap :=
  if n =? 0 then []
  else if n <? 0 then [(0, - n, 0)] else [(0, 0, n)].

(** [ReplaceStep.map(mapping)]; [None] is JavaScript's [null]. *)
Definition stepMap (s : Step) (m : StepMap) : option Step :=
  let from := mapResult m (step_from s) 1 in
  let to := mapResult m (step_to s) (-1) in
  if deletedAcross from && deletedAcross to then None
  else Some (ReplaceStep (mr_pos from) (Z.max (mr_pos from) (mr_pos to)) (step_slice s)).

(** [ReplaceStep.getMap()]. *)
Definition getMap (s : Step) : StepMap :=
  [(step_from s, step_to s - step_from s, sliceSize (step_slice s))].

(** [Mapping.map(pos, assoc)] through the maps of several steps. *)
Definition mappingMap (maps : list StepMap) (pos assoc : Z) : Z :=
  foldl (fun p m => mapPos m p assoc) pos maps.

(** ** Selections, transactions and editor state (prosemirror-state) *)

(** A selection with one range; [TextSelection.create(doc, a, h)] builds
    [{| anchor := a; head := h |}]. *)
Record Selection := { anchor : Z; head : Z }.

#[global] Instance Selection_eq_dec : EqDecision Selection.
Proof. solve_decision. Defined.

Definition sel_from (s : Selection) : Z := Z.min (anchor s) (head s).
Definition sel_to (s : Selection) : Z := Z.max (anchor s) (head s).
Definition sel_empty (s : Selection) : bool := sel_from s =? sel_to s.

(** Values stored under a transaction's metadata keys. *)
Inductive MetaVal : Type :=
| MBool (b : bool)
| MNum (z : Z)
| MStr (s : string).

(** JavaScript truthiness of [tr.getMeta(key)]; [None] is [undefined]. *)
Definition truthy (v : option MetaVal) : bool :=
  match v with
  | None => false
  | Some (MBool b) => b
  | Some (MNum z) => negb (z =? 0)
  | Some (MStr s) => negb (bool_decide (s = EmptyString))
  end.

Definition UPDATED_SEL : Z := 1.
Definition UPDATED_MARKS : Z := 2.
Definition UPDATED_SCROLL : Z := 4.

(** What the host supplies for a document: its content size, the effect of
    a step, and the step fitting of [replaceStep].  [stepApply] throws when
    the step fails or a position does not resolve. *)
Class Document (D : Type) := {
  contentSize : D -> Z;
  stepApply : Step -> D -> result D;
  fitsTrivially : D -> Z -> Z -> Slice -> bool;
  fitter : D -> Z -> Z -> Slice -> option Step
}.

(** The inner document: every flat text slice fits a [text*] node. *)
#[global] Instance Node_Document : Document Node := {
  contentSize n := fragSize (content n);
  stepApply := stepApplyNode;
  fitsTrivially _ _ _ _ := true;
  fitter _ _ _ _ := None
}.

Section Transactions.
Context {D : Type} `{Document D}.

Record EditorState := { st_doc : D; st_selection : Selection }.

(** A transaction.  [tr_before] is [docs[0]], or the document itself while
    there are no steps; [tr_curSelectionFor] is the number of steps present
    when the selection was last set. *)
Record Transaction := {
  tr_before : D;
  tr_doc : D;
  tr_steps : list Step;
  tr_curSelection : Selection;
  tr_curSelectionFor : nat;
  tr_updated : Z;
  tr_meta : gmap string MetaVal
}.

(** [state.tr]. *)
Definition newTr (st : EditorState) : Transaction :=
  {| tr_before := st_doc st; tr_doc := st_doc st; tr_steps := [];
     tr_curSelection := st_selection st; tr_curSelectionFor := 0%nat;
     tr_updated := 0; tr_meta := ∅ |}.

(** [doc.resolve(pos)] as far as it can throw. *)
Definition resolveCheck (d : D) (pos : Z) : result unit :=
  if negb (bool_decide (pos >= 0) && bool_decide (pos <= contentSize d))
  then Throw RangeError else Ok tt.

(** [TextSelection.create(doc, anchor, head)]. *)
Definition TextSelection_create (d : D) (a h : Z) : result Selection :=
  do _ <- resolveCheck d a;
  do _ <- (if bool_decide (h = a) then Ok tt else resolveCheck d h);
  Ok {| anchor := a; head := h |}.

(** [tr.step(step)]: apply the step to the current document and record it. *)
Definition step (tr : Transaction) (s : Step) : result Transaction :=
  do d <- stepApply s (tr_doc tr);
  Ok {| tr_before := tr_before tr; tr_doc := d; tr_steps := tr_steps tr ++ [s];
        tr_curSelection := tr_curSelection tr;
        tr_curSelectionFor := tr_curSelectionFor tr;
        tr_updated := Z.land (tr_updated tr) (Z.lnot UPDATED_MARKS);
        tr_meta := tr_meta tr |}.

(** [replaceStep(doc, from, to, slice)]. *)
Definition replaceStep (d : D) (from to : Z) (slice : Slice) : result (option Step) :=
  if bool_decide (from = to) && bool_decide (sliceSize slice = 0) then Ok None
  else do _ <- resolveCheck d from;
       do _ <- resolveCheck d to;
       if fitsTrivially d from to slice then Ok (Some (ReplaceStep from to slice))
       else Ok (fitter d from to slice).

(** [tr.replace(from, to, slice)]. *)
Definition trReplace (tr : Transaction) (from to : Z) (slice : Slice) : result Transaction :=
  do s <- replaceStep (tr_doc tr) from to slice;
  match s with
  | Some s => step tr s
  | None => Ok tr
  end.

(** [tr.delete(from, to)]. *)
Definition trDelete (tr : Transaction) (from to : Z) : result Transaction :=
  trReplace tr from to Slice_empty.

(** [tr.setSelection(selection)].  Every selection the controller passes
    was created from the transaction's own document. *)
Definition setSelection (tr : Transaction) (sel : Selection) : Transaction :=
  {| tr_before := tr_before tr; tr_doc := tr_doc tr; tr_steps := tr_steps tr;
     tr_curSelection := sel; tr_curSelectionFor := length (tr_steps tr);
     tr_updated := Z.land (Z.lor (tr_updated tr) UPDATED_SEL) (Z.lnot UPDATED_MARKS);
     tr_meta := tr_meta tr |}.

(** [tr.scrollIntoView()]. *)
Definition scrollIntoView (tr : Transaction) : Transaction :=
  {| tr_before := tr_before tr; tr_doc := tr_doc tr; tr_steps := tr_steps tr;
     tr_curSelection := tr_curSelection tr;
     tr_curSelectionFor := tr_curSelectionFor tr;
     tr_updated := Z.lor (tr_updated tr) UPDATED_SCROLL;
     tr_meta := tr_meta tr |}.

Definition scrolledIntoView (tr : Transaction) : bool :=
  Z.land (tr_updated tr) UPDATED_SCROLL >? 0.

Definition selectionSet (tr : Transaction) : bool :=
  Z.land (tr_updated tr) UPDATED_SEL >? 0.

(** [tr.setMeta(key, value)] and [tr.getMeta(key)]. *)
Definition setMeta (tr : Transaction) (key : string) (v : MetaVal) : Transaction :=
  {| tr_before := tr_before tr; tr_doc := tr_doc tr; tr_steps := tr_steps tr;
     tr_curSelection := tr_curSelection tr;
     tr_curSelectionFor := tr_curSelectionFor tr;
     tr_updated := tr_updated tr;
     tr_meta := <[key := v]> (tr_meta tr) |}.

Definition getMeta (tr : Transaction) (key : string) : option MetaVal :=
  tr_meta tr !! key.

(** [tr.docChanged]: the transaction holds at least one step. *)
Definition docChanged (tr : Transaction) : bool :=
  negb (bool_decide (tr_steps tr = [])).

(** [TextSelection.map(doc, mapping)] in a document with inline content. *)
Definition mapSelection (d : D) (sel : Selection) (maps : list StepMap) : result Selection :=
  let h := mappingMap maps (head sel) 1 in
  do _ <- resolveCheck d h;
  let a := mappingMap maps (anchor sel) 1 in
  do _ <- resolveCheck d a;
  Ok {| anchor := a; head := h |}.

(** The getter [tr.selection]: the selection last set, mapped through the
    steps added since. *)
Definition trSelection (tr : Transaction) : result Selection :=
  if bool_decide (tr_curSelectionFor tr < length (tr_steps tr))%nat
  then mapSelection (tr_doc tr) (tr_curSelection tr)
         (getMap <$> drop (tr_curSelectionFor tr) (tr_steps tr))
  else Ok (tr_curSelection tr).

End Transactions.

Arguments EditorState D : clear implicits.
Arguments Transaction D : clear implicits.

(** [EditorState.applyInner(tr)] for the inner state. *)
Definition applyInner (st : EditorState Node) (tr : Transaction Node) : result (EditorState Node) :=
  if negb (bool_decide (tr_before tr = st_doc st)) then Throw RangeError
  else do sel <- trSelection tr;
       Ok {| st_doc := tr_doc tr; st_selection := sel |}.

(** [EditorState.applyTransaction(rootTr)].  The inner state has the keymap
    plugin only, which neither filters nor appends transactions. *)
Definition applyTransaction (st : EditorState Node) (rootTr : Transaction Node)
  : result (EditorState Node * list (Transaction Node)) :=
  do newState <- applyInner st rootTr;
  Ok (newState, [rootTr]).

End PM.

(** ** The nested editor controller ([class LiquidView]) *)

Module LiquidView.
Import PM.

Section Controller.
Context {OuterDoc : Type} `{Document OuterDoc}.

(** The controller's fields.  [innerView] is [None] until the constructor
    has assigned it; otherwise it holds the inner view's state. *)
Record LiquidView := {
  node : Node;
  innerView : option (EditorState Node)
}.

(** What the controller reads from its surroundings during one call: the
    outer view's state and the value [getPos()] returns. *)
Record Host := {
  outerState : EditorState OuterDoc;
  getPos : Z
}.

(** Calls made on the two views. *)
Inductive Event : Type :=
| OuterDispatch (tr : Transaction OuterDoc)
| OuterFocus
| InnerFocus.

(** The result of a method: the value returned or the exception thrown, the
    controller afterwards, and the calls made in order. *)
Record Outcome (A : Type) := {
  value : result A;
  view : LiquidView;
  trace : list Event
}.
Arguments value {A} o.
Arguments view {A} o.
Arguments trace {A} o.

Definition returns {A} (a : A) (v : LiquidView) (t : list Event) : Outcome A :=
  {| value := Ok a; view := v; trace := t |}.

Definition throws {A} (e : Error) (v : LiquidView) (t : list Event) : Outcome A :=
  {| value := Throw e; view := v; trace := t |}.

(** [get length()]. *)
Definition length (v : LiquidView) : Z := nodeSize (node v) - 2.

(** The inner loop of [dispatchInner]:
    [for (j ...) outerTr.step(steps[j].map(offsetMap))]. *)
Fixpoint stepLoop (outerTr : Transaction OuterDoc) (steps : list Step)
    (offsetMap : StepMap) : result (Transaction OuterDoc) :=
  match steps with
  | [] => Ok outerTr
  | s :: rest =>
      match stepMap s offsetMap with
      | None => Throw TypeError
      | Some s' => do outerTr' <- step outerTr s'; stepLoop outerTr' rest offsetMap
      end
  end.

(** The outer loop: [for (i ...) { let steps = transactions[i].steps; ... }]. *)
Fixpoint transactionLoop (outerTr : Transaction OuterDoc)
    (transactions : list (Transaction Node)) (offsetMap : StepMap)
  : result (Transaction OuterDoc) :=
  match transactions with
  | [] => Ok outerTr
  | t :: rest =>
      do outerTr' <- stepLoop outerTr (tr_steps t) offsetMap;
      transactionLoop outerTr' rest offsetMap
  end.

(** [dispatchInner(tr)]. *)
Definition dispatchInner (h : Host) (tr : Transaction Node) (v : LiquidView)
  : Outcome unit :=
  match innerView v with
  | None => throws TypeError v []
  | Some st =>
      match applyTransaction st tr with
      | Throw e => throws e v []
      | Ok (state, transactions) =>
          let v' := {| node := node v; innerView := Some state |} in
          if negb (truthy (getMeta tr "fromOutside")) then
            let outerTr := newTr (outerState h) in
            let offsetMap := offset (getPos h + 1) in
            match transactionLoop outerTr transactions offsetMap with
            | Throw e => throws e v' []
            | Ok outerTr =>
                if docChanged outerTr
                then returns tt v' [OuterDispatch outerTr]
                else returns tt v' []
            end
          else returns tt v' []
      end
  end.

(** Lines 100-101 of [update]: the overlap correction of the two ends. *)
Definition widen (start endA endB : Z) : Z * Z :=
  let overlap := start - Z.min endA endB in
  if overlap >? 0 then (endA + overlap, endB + overlap) else (endA, endB).

(** The transaction [update] builds:
    [state.tr.replace(start, endB, node.slice(start, endA))
       .setMeta('fromOutside', true)]. *)
Definition updateTr (n : Node) (state : EditorState Node) (start endA endB : Z)
  : result (Transaction Node) :=
  do slice <- nodeSlice n start endA;
  do tr <- trReplace (newTr state) start endB slice;
  Ok (setMeta tr "fromOutside" (MBool true)).

(** [update(node)]. *)
Definition update (h : Host) (n : Node) (v : LiquidView) : Outcome bool :=
  if negb (sameMarkup n (node v)) then returns false v []
  else
    let v1 := {| node := n; innerView := innerView v |} in
    match innerView v1 with
    | None => returns true v1 []
    | Some state =>
        match findDiffStart (content n) (content (st_doc state)) 0 with
        | None => returns true v1 []
        | Some start =>
            match findDiffEnd (content n) (content (st_doc state)) with
            | None => throws TypeError v1 []
            | Some (endA, endB) =>
                let '(endA, endB) := widen start endA endB in
                match updateTr n state start endA endB with
                | Throw e => throws e v1 []
                | Ok tr =>
                    let o := dispatchInner h tr v1 in
                    match value o with
                    | Throw e => throws e (view o) (trace o)
                    | Ok _ => returns true (view o) (trace o)
                    end
                end
            end
        end
    end.

(** [maybeEscape(dir)]. *)
Definition maybeEscape (h : Host) (dir : Z) (v : LiquidView) : Outcome bool :=
  match innerView v with
  | None => throws TypeError v []
  | Some state =>
      let selection := st_selection state in
      let isOnEdge := if dir <? 0 then sel_from selection =? 0
                      else sel_to selection =? length v in
      if negb (sel_empty selection) || negb isOnEdge then returns false v []
      else
        let targetPos := getPos h + (if dir <? 0 then 0 else nodeSize (node v)) in
        match TextSelection_create (st_doc (outerState h)) targetPos targetPos with
        | Throw e => throws e v []
        | Ok sel =>
            returns true v
              [OuterDispatch (setSelection (newTr (outerState h)) sel); OuterFocus]
        end
  end.

(** [maybeRemove()].  The method has no [return] on the path where the node
    is not empty: [None] stands for [undefined], which a keymap reads as
    "not handled". *)
Definition maybeRemove (h : Host) (v : LiquidView) : Outcome (option bool) :=
  if length v =? 0 then
    let state := outerState h in
    let from := getPos h in
    let to := from + nodeSize (node v) in
    match (do sel <- TextSelection_create (st_doc state) from to;
           do tr <- trDelete (setSelection (newTr state) sel) from to;
           Ok (scrollIntoView tr)) with
    | Throw e => throws e v []
    | Ok tr => returns (Some true) v [OuterDispatch tr]
    end
  else returns None v [].

(** A key binding counts as handled when the command's result is truthy. *)
Definition handled (r : option bool) : bool :=
  match r with
  | Some b => b
  | None => false
  end.

(** [setSelection(from, to)]: the inner view's [dispatch] calls
    [dispatchInner]. *)
Definition setSelection (h : Host) (from to : Z) (v : LiquidView) : Outcome unit :=
  match innerView v with
  | None => throws TypeError v []
  | Some state =>
      match TextSelection_create (st_doc state) from to with
      | Throw e => throws e v []
      | Ok sel =>
          let o := dispatchInner h (PM.setSelection (newTr state) sel) v in
          match value o with
          | Throw e => o
          | Ok _ => returns tt (view o) (trace o ++ [InnerFocus])
          end
      end
  end.

(** [selectNode()]. *)
Definition selectNode (h : Host) (v : LiquidView) : Outcome unit :=
  setSelection h 0 0 v.

(** The constructor: the inner view starts from the node itself with the
    selection at the start of the document, then [setSelection(0, 0)]. *)
Definition construct (h : Host) (n : Node) : Outcome unit :=
  let state := {| st_doc := n; st_selection := {| anchor := 0; head := 0 |} |} in
  setSelection h 0 0 {| node := n; innerView := Some state |}.

End Controller.

Arguments LiquidView : clear implicits.
Arguments Outcome OuterDoc A : clear implicits.
Arguments value {OuterDoc A} o.
Arguments view {OuterDoc A} o.
Arguments trace {OuterDoc A} o.
Arguments Event OuterDoc : clear implicits.
Arguments Host OuterDoc : clear implicits.

End LiquidView.

(** ** The outer arrow-key commands *)

Module Arrow.
Import PM.

(** What [isNearInlineBlock] reads of a neighbouring node. *)
Record NodeInfo := { isText : bool; isInline : bool }.

(** What the outer document supplies for navigation: the nodes next to a
    resolved position and [Selection.findFrom($pos, dir, textOnly)], which
    may find nothing ([None] is [null]). *)
Class Navigation (D : Type) := {
  nodeBeforeAt : D -> Z -> option NodeInfo;
  nodeAfterAt : D -> Z -> option NodeInfo;
  findFrom : D -> Z -> Z -> bool -> option Selection
}.

Section Commands.
Context {D : Type} `{Document D} `{Navigation D}.

(** [isNearInlineBlock(state, side)], read for its truthiness. *)
Definition isNearInlineBlock (state : EditorState D) (side : Z) : bool :=
  let h := head (st_selection state) in
  if side >=? 0
  then match nodeAfterAt (st_doc state) h with
       | Some nodeAfter => negb (isText nodeAfter) && isInline nodeAfter
       | None => false
       end
  else match nodeBeforeAt (st_doc state) h with
       | Some nodeBefore => negb (isText nodeBefore) && isInline nodeBefore
       | None => false
       end.

(** The result of running a command: its return value or the exception,
    and the transactions handed to [dispatch]. *)
Record CommandResult := {
  returned : result bool;
  dispatched : list (Transaction D)
}.

Definition sideOf (dir : string) : Z :=
  if bool_decide (dir = "left"%string) || bool_decide (dir = "up"%string) then -1 else 1.

(** [arrowHandler(dir)(state, dispatch)]. *)
Definition arrowHandler (dir : string) (state : EditorState D) : CommandResult :=
  let selection := st_selection state in
  let tr := newTr state in
  let side := sideOf dir in
  if sel_empty selection && isNearInlineBlock state side then
    let targetPos := head selection + side in
    match resolveCheck (st_doc state) targetPos with
    | Throw e => {| returned := Throw e; dispatched := [] |}
    | Ok _ =>
        match findFrom (st_doc state) targetPos side true with
        | None => {| returned := Throw TypeError; dispatched := [] |}
        | Some newSelection =>
            {| returned := Ok true;
               dispatched := [scrollIntoView (setSelection tr newSelection)] |}
        end
    end
  else {| returned := Ok false; dispatched := [] |}.

End Commands.

End Arrow.

(** ** A small outer document

    [doc(paragraph(children))]: the children of the one paragraph are text
    nodes, nodes with text content (the liquid node) and inline leaves.
    The paragraph opens at position 0, its content starts at position 1.
    [applyStep] follows [Node.replace] for a step whose slice is flat text:
    both ends inside one nested node, both ends in the paragraph's own
    content, or one end in each of two nested nodes (which joins them); a
    step whose ends lie at different depths fails as a transform, a
    position outside the document is a [RangeError], and so is content the
    document node does not allow (text beside the paragraph, no paragraph).
    Two things are outside this document: the fitting of a range that is
    not within one parent ([Fitter]), and the empty range from the end of
    the document back to its start, whose result would hold the paragraph
    twice; that last step is answered as a failed transform, and [fits]
    answers no for it. *)

Module Sample.
Import PM Arrow.

Inductive Inline : Type :=
| IText (t : TextNode)
| INode (n : Node)
| ILeaf (name : string).

Definition Doc := list Inline.

Definition inlineSize (c : Inline) : Z :=
  match c with
  | IText t => textSize t
  | INode n => nodeSize n
  | ILeaf _ => 1
  end.

Fixpoint childrenSize (cs : list Inline) : Z :=
  match cs with
  | [] => 0
  | c :: cs' => inlineSize c + childrenSize cs'
  end.

(** [Fragment.findIndex(pos)] on the paragraph's children. *)
Fixpoint findChildLoop (cs : list Inline) (i : nat) (curPos pos : Z) : nat * Z :=
  match cs with
  | [] => (i, curPos)
  | cur :: cs' =>
      let end_ := curPos + inlineSize cur in
      if bool_decide (end_ >= pos) then
        if bool_decide (end_ = pos) then (S i, end_) else (i, curPos)
      else findChildLoop cs' (S i) end_ pos
  end.

Definition findChild (cs : list Inline) (pos : Z) : nat * Z :=
  if bool_decide (pos = 0) then (0%nat, pos)
  else if bool_decide (pos = childrenSize cs) then (List.length cs, pos)
  else findChildLoop cs 0 0 pos.

(** Where a position resolves: at the level of the document (depth 0), in
    the paragraph's content (depth 1; before child [index], or [textOffset]
    into the text child [index]), or inside the nested node [index] at its
    own position [inner] (depth 2). *)
Inductive Place : Type :=
| AtDoc
| InParagraph (index : nat) (textOffset : Z)
| InNode (index : nat) (n : Node) (inner : Z).

Definition placeOf (d : Doc) (pos : Z) : Place :=
  if (pos =? 0) || (pos =? 2 + childrenSize d) then AtDoc
  else
    let '(i, off) := findChild d (pos - 1) in
    let rem := pos - 1 - off in
    if rem =? 0 then InParagraph i 0
    else match d !! i with
         | Some (INode n) => InNode i n (rem - 1)
         | _ => InParagraph i rem
         end.

Definition inRange (d : Doc) (pos : Z) : bool :=
  (0 <=? pos) && (pos <=? 2 + childrenSize d).

(** [addNode(child, target)] for the paragraph's children. *)
Definition addInline (child : Inline) (target : list Inline) : list Inline :=
  match child, rev target with
  | IText c, IText last :: rt =>
      if sameMarkupT c last
      then rev rt ++ [IText (withText c (text last ++ text c))]
      else target ++ [child]
  | _, _ => target ++ [child]
  end.

Definition addInlines (cs target : list Inline) : list Inline :=
  foldl (fun t c => addInline c t) target cs.

(** [child.cut(...)] as [Fragment.cut] calls it for a child that the cut
    crosses; [pos] is where the child starts. *)
Definition inlineCut (c : Inline) (pos from to : Z) : Inline :=
  match c with
  | IText t => IText (textCut t (Z.max 0 (from - pos)) (Z.min (textSize t) (to - pos)))
  | INode n =>
      let f := Z.max 0 (from - pos - 1) in
      let t := Z.min (fragSize (content n)) (to - pos - 1) in
      if bool_decide (f = 0) && bool_decide (t = fragSize (content n)) then c
      else INode (copy n (cut (content n) f t))
  | ILeaf _ => c
  end.

Fixpoint childrenCutLoop (cs : list Inline) (pos from to : Z) : list Inline :=
  match cs with
  | [] => []
  | child :: cs' =>
      if bool_decide (pos < to) then
        let end_ := pos + inlineSize child in
        let rest := childrenCutLoop cs' end_ from to in
        if bool_decide (end_ > from) then
          (if bool_decide (pos < from) || bool_decide (end_ > to)
           then inlineCut child pos from to else child) :: rest
        else rest
      else []
  end.

(** [Fragment.cut(from, to)] on the paragraph's children. *)
Definition childrenCut (cs : list Inline) (from to : Z) : list Inline :=
  if bool_decide (from = 0) && bool_decide (to = childrenSize cs) then cs
  else if bool_decide (to > from) then childrenCutLoop cs 0 from to
  else [].

(** [Fragment.append(other)] on the paragraph's children. *)
Definition appendChildren (a b : list Inline) : list Inline :=
  if bool_decide (childrenSize b = 0) then a
  else if bool_decide (childrenSize a = 0) then b
  else match rev a, b with
       | IText last :: ra, IText first :: b' =>
           if sameMarkupT last first
           then rev ra ++ IText (withText last (text last ++ text first)) :: b'
           else a ++ b
       | _, _ => a ++ b
       end.

(** [replaceTwoWay] in the paragraph: the children and partial text before
    the first place, then the partial text and children after the second. *)
Definition paragraphTwoWay (d : Doc) (i : nat) (fromOff : Z) (j : nat) (toOff : Z)
  : list Inline :=
  let before := addInlines (take i d) [] in
  let before :=
    if fromOff =? 0 then before
    else match d !! i with
         | Some (IText t) => addInline (IText (textCut t 0 fromOff)) before
         | _ => before
         end in
  let '(start, before) :=
    if toOff =? 0 then (j, before)
    else (S j, match d !! j with
               | Some (IText t) => addInline (IText (textCut t toOff (textSize t))) before
               | _ => before
               end) in
  addInlines (drop start d) before.

(** A replace with both ends in the paragraph's content. *)
Definition paragraphReplace (d : Doc) (from to : Z) (i : nat) (fromOff : Z)
    (j : nat) (toOff : Z) (slice : Slice) : Doc :=
  if bool_decide (sliceSize slice = 0) then paragraphTwoWay d i fromOff j toOff
  else appendChildren
         (appendChildren (childrenCut d 0 (from - 1)) (IText <$> slice_content slice))
         (childrenCut d (to - 1) (childrenSize d)).

(** A replace from inside the nested node [i] to inside another nested
    node [j]: what remains of both becomes the content of one node of the
    first one's type. *)
Definition joinNodes (d : Doc) (i : nat) (n : Node) (f : Z) (j : nat) (m : Node) (t : Z)
    (slice : Slice) : result Doc :=
  do rf <- resolve n f;
  do rt <- resolve m t;
  let inner :=
    addRange (content m) (Some rt) None
      (addNodes (slice_content slice) (addRange (content n) None (Some rf) [])) in
  Ok (addInlines (drop (S j) d) (addInline (INode (copy n inner)) (addInlines (take i d) []))).

(** [ReplaceStep.apply] on this document. *)
Definition applyStep (s : Step) (d : Doc) : result Doc :=
  let from := step_from s in
  let to := step_to s in
  let slice := step_slice s in
  if negb (inRange d from) || negb (inRange d to) then Throw RangeError
  else match placeOf d from, placeOf d to with
       | InNode i n f, InNode j m t =>
           if bool_decide (i = j)
           then do n' <- replace n f t slice; Ok (<[i := INode n']> d)
           else joinNodes d i n f j m t slice
       | InParagraph i fromOff, InParagraph j toOff =>
           Ok (paragraphReplace d from to i fromOff j toOff slice)
       | AtDoc, AtDoc =>
           if negb (bool_decide (sliceSize slice = 0)) then Throw RangeError
           else if bool_decide (from = to) then Ok d
           else if bool_decide (from < to) then Throw RangeError
           else Throw TransformError
       | _, _ => Throw TransformError
       end.

(** [fitsTrivially($from, $to, slice)]: both ends in the same parent. *)
Definition fits (d : Doc) (from to : Z) (slice : Slice) : bool :=
  match placeOf d from, placeOf d to with
  | InParagraph _ _, InParagraph _ _ => true
  | InNode i _ _, InNode j _ _ => bool_decide (i = j)
  | _, _ => false
  end.

#[global] Instance Doc_Document : Document Doc := {
  contentSize d := 2 + childrenSize d;
  stepApply := applyStep;
  fitsTrivially := fits;
  fitter _ _ _ _ := None
}.

Definition info (c : Inline) : NodeInfo :=
  match c with
  | IText _ => {| isText := true; isInline := true |}
  | _ => {| isText := false; isInline := true |}
  end.

Definition textInfo : NodeInfo := {| isText := true; isInline := true |}.
Definition paragraphInfo : NodeInfo := {| isText := false; isInline := false |}.

(** The node after position [pos] among the children starting at [q]. *)
Fixpoint nodeAfterIn (cs : list Inline) (q pos : Z) : option NodeInfo :=
  match cs with
  | [] => None
  | c :: cs' =>
      let size := inlineSize c in
      if pos =? q then Some (info c)
      else if pos <? q + size
           then match c with
                | INode _ => if pos <? q + size - 1 then Some textInfo else None
                | _ => Some textInfo
                end
           else nodeAfterIn cs' (q + size) pos
  end.

(** The node before position [pos]; [prev] is the child that ends at [q]. *)
Fixpoint nodeBeforeIn (cs : list Inline) (prev : option NodeInfo) (q pos : Z)
  : option NodeInfo :=
  if pos =? q then prev
  else match cs with
       | [] => None
       | c :: cs' =>
           let size := inlineSize c in
           if pos <? q + size
           then match c with
                | INode _ => if q + 1 <? pos then Some textInfo else None
                | _ => Some textInfo
                end
           else nodeBeforeIn cs' (Some (info c)) (q + size) pos
       end.

#[global] Instance Doc_Navigation : Navigation Doc := {
  nodeBeforeAt d pos :=
    if pos =? 0 then None
    else if pos =? 2 + childrenSize d then Some paragraphInfo
    else nodeBeforeIn d None 1 pos;
  nodeAfterAt d pos :=
    if pos =? 0 then Some paragraphInfo
    else if pos =? 2 + childrenSize d then None
    else nodeAfterIn d 1 pos;
  findFrom d pos dir textOnly :=
    if (1 <=? pos) && (pos <=? 1 + childrenSize d)
    then Some {| anchor := pos; head := pos |}
    else if (pos =? 0) && (dir >? 0) then Some {| anchor := 1; head := 1 |}
    else if (pos =? 2 + childrenSize d) && (dir <? 0)
         then Some {| anchor := 1 + childrenSize d; head := 1 + childrenSize d |}
         else None
}.

(** Sample data: the paragraph [ab{{xy}}c] and a controller bound to the
    liquid node at position 3. *)
Definition txt (s : string) : TextNode := {| text := list_ascii_of_string s; marks := [] |}.

Definition liquid (f : Fragment) : Node :=
  {| ntype := "liquid"; attrs := []; nmarks := []; content := f |}.

Definition doc0 : Doc := [IText (txt "ab"); INode (liquid [txt "xy"]); IText (txt "c")].

Definition cursor (p : Z) : Selection := {| anchor := p; head := p |}.

Definition host0 : LiquidView.Host Doc :=
  {| LiquidView.outerState := {| st_doc := doc0; st_selection := cursor 1 |};
     LiquidView.getPos := 3 |}.

Definition state0 : EditorState Node :=
  {| st_doc := liquid [txt "xy"]; st_selection := cursor 0 |}.

Definition view0 : LiquidView.LiquidView :=
  {| LiquidView.node := liquid [txt "xy"]; LiquidView.innerView := Some state0 |}.

(** The same controller with the inner cursor after the first character. *)
Definition view1 : LiquidView.LiquidView :=
  {| LiquidView.node := liquid [txt "xy"];
     LiquidView.innerView := Some {| st_doc := liquid [txt "xy"]; st_selection := cursor 1 |} |}.

(** A node of another type. *)
Definition image : Node := {| ntype := "image"; attrs := []; nmarks := []; content := [] |}.

(** The user types [Q] between [x] and [y] in the inner view. *)
Definition typed : Transaction Node :=
  {| tr_before := liquid [txt "xy"]; tr_doc := liquid [txt "xQy"];
     tr_steps := [ReplaceStep 1 1 {| slice_content := [txt "Q"] |}];
     tr_curSelection := cursor 0; tr_curSelectionFor := 0%nat;
     tr_updated := 0; tr_meta := ∅ |}.

(** The outer transaction that carries this edit. *)
Definition typedOuter : Transaction Doc :=
  {| tr_before := doc0;
     tr_doc := [IText (txt "ab"); INode (liquid [txt "xQy"]); IText (txt "c")];
     tr_steps := [ReplaceStep 5 5 {| slice_content := [txt "Q"] |}];
     tr_curSelection := cursor 1; tr_curSelectionFor := 0%nat;
     tr_updated := 0; tr_meta := ∅ |}.

(** The paragraph [ab{{}}c] and a controller bound to its empty liquid node. *)
Definition docEmpty : Doc := [IText (txt "ab"); INode (liquid []); IText (txt "c")].

Definition hostEmpty : LiquidView.Host Doc :=
  {| LiquidView.outerState := {| st_doc := docEmpty; st_selection := cursor 1 |};
     LiquidView.getPos := 3 |}.

Definition viewEmpty : LiquidView.LiquidView :=
  {| LiquidView.node := liquid [];
     LiquidView.innerView := Some {| st_doc := liquid []; st_selection := cursor 0 |} |}.

(** The old and new contents of the ambiguous insertion: [aa] becomes [aaa]. *)
Definition stateAA : EditorState Node :=
  {| st_doc := liquid [txt "aa"]; st_selection := cursor 0 |}.

(** A host whose position lookup points outside the paragraph. *)
Definition hostStale : LiquidView.Host Doc :=
  {| LiquidView.outerState := {| st_doc := doc0; st_selection := cursor 1 |};
     LiquidView.getPos := 100 |}.

(** A host whose position lookup is stale: it points into the text in
    front of the node. *)
Definition hostShifted : LiquidView.Host Doc :=
  {| LiquidView.outerState := {| st_doc := doc0; st_selection := cursor 1 |};
     LiquidView.getPos := 1 |}.

(** The user deletes [xy] in the inner view. *)
Definition erased : Transaction Node :=
  {| tr_before := liquid [txt "xy"]; tr_doc := liquid [];
     tr_steps := [ReplaceStep 0 2 Slice_empty];
     tr_curSelection := cursor 0; tr_curSelectionFor := 0%nat;
     tr_updated := 0; tr_meta := ∅ |}.

(** The edit [typed], tagged as coming from outside. *)
Definition taggedEdit : Transaction Node := setMeta typed "fromOutside" (MBool true).

(** The controller bound to [aa]. *)
Definition viewAA : LiquidView.LiquidView :=
  {| LiquidView.node := liquid [txt "aa"];
     LiquidView.innerView :=
       Some {| st_doc := liquid [txt "aa"]; st_selection := cursor 0 |} |}.

(** A transaction built against another document than [state0]'s. *)
Definition foreign : Transaction Node :=
  newTr {| st_doc := liquid [txt "zz"]; st_selection := cursor 0 |}.

(** The inner cursor moves behind [x]; no step. *)
Definition moved : Transaction Node := setSelection (newTr state0) (cursor 1).

(** The inner state with the cursor behind [x]. *)
Definition stateCursor1 : EditorState Node :=
  {| st_doc := liquid [txt "xy"]; st_selection := cursor 1 |}.

(** The controller with the inner cursor at the end of [xy]. *)
Definition stateEnd : EditorState Node :=
  {| st_doc := liquid [txt "xy"]; st_selection := cursor 2 |}.

Definition viewEnd : LiquidView.LiquidView :=
  {| LiquidView.node := liquid [txt "xy"]; LiquidView.innerView := Some stateEnd |}.

End Sample.

(** * Vocabulary of the properties *)

Section Vocabulary.
Import PM.

(** A fragment read as its code units, each with the marks it carries:
    positions in a text fragment are indexes into this list. *)
Definition nodeChars (c : TextNode) : list (ascii * list Mark) :=
  (fun x => (x, marks c)) <$> text c.

Fixpoint chars (f : Fragment) : list (ascii * list Mark) :=
  match f with
  | [] => []
  | c :: f' => nodeChars c ++ chars f'
  end.

(** The sub-list between two positions. *)
Definition sub {A} (l : list A) (from to : Z) : list A :=
  take (Z.to_nat (to - from)) (drop (Z.to_nat from) l).

Definition revNode (c : TextNode) : TextNode := withText c (rev (text c)).


(** The form every fragment built by the framework's own operations has:
    no empty text node, and no two neighbours with the same marks (they
    would have been joined). *)
Fixpoint normalized (f : Fragment) : Prop :=
  match f with
  | [] => True
  | c :: f' =>
      text c <> []
      /\ match f' with [] => True | c' :: _ => marks c <> marks c' end
      /\ normalized f'
  end.

(** The canonical fragment of a list of marked characters. *)
Fixpoint norm (l : list (ascii * list Mark)) : Fragment :=
  match l with
  | [] => []
  | (x, m) :: l' =>
      match norm l' with
      | c :: r =>
          if bool_decide (marks c = m)
          then {| text := x :: text c; marks := m |} :: r
          else {| text := [x]; marks := m |} :: c :: r
      | [] => [{| text := [x]; marks := m |}]
      end
  end.

(** What a resolved position of a fragment satisfies. *)
Definition goodPos (f : Fragment) (r : ResolvedPos) : Prop :=
  0 <= textOffset r
  /\ (textOffset r = 0
      \/ exists c, f !! rindex r = Some c /\ text c <> [] /\ textOffset r < textSize c).

(** The inner selection points into the inner document. *)
Definition selIn (sel : Selection) (doc : Node) : Prop :=
  0 <= anchor sel <= fragSize (content doc) /\ 0 <= head sel <= fragSize (content doc).

Definition stateOk (st : EditorState Node) : Prop := selIn (st_selection st) (st_doc st).

(** A result that is a value or a [RangeError]. *)
Definition onlyRange {A} (r : result A) : Prop :=
  match r with
  | Ok _ => True
  | Throw e => e = RangeError
  end.

End Vocabulary.

Section OuterVocabulary.
Import PM.
Context {OuterDoc : Type} `{Document OuterDoc}.

(** The same edit, [n] positions further. *)
Definition shiftStep (n : Z) (s : Step) : Step :=
  ReplaceStep (step_from s + n) (step_to s + n) (step_slice s).

(** [tr.step(s1).step(s2)...] for a list of steps. *)
Fixpoint stepAll (tr : Transaction OuterDoc) (steps : list Step)
  : result (Transaction OuterDoc) :=
  match steps with
  | [] => Ok tr
  | s :: rest => do tr' <- step tr s; stepAll tr' rest
  end.

(** All steps of a list of transactions, in order. *)
Definition allSteps (trs : list (Transaction Node)) : list Step :=
  concat (tr_steps <$> trs).

Definition stepOk (s : Step) : Prop := 0 <= step_from s <= step_to s.

(** A call on the outer view that can at most move its cursor: focus, or a
    transaction without steps, on the outer document as it is, that sets a
    collapsed selection. *)
Definition movesCursorOnly (outer : EditorState OuterDoc)
    (e : LiquidView.Event OuterDoc) : Prop :=
  match e with
  | LiquidView.OuterDispatch tr =>
      tr_steps tr = [] /\ tr_before tr = st_doc outer /\ tr_doc tr = st_doc outer
      /\ sel_empty (tr_curSelection tr) = true
  | _ => True
  end.

End OuterVocabulary.

Section ArrowVocabulary.
Import PM Arrow.
Context {D : Type} `{Document D} `{Navigation D}.

(** The side a key moves to. *)
Definition keySide (dir : string) : Z :=
  if bool_decide (dir = "left"%string \/ dir = "up"%string) then -1 else 1.

(** The command applies: the selection is collapsed and the node next to
    the cursor on the key's side exists, is not text and is inline. *)
Definition stepsOver (dir : string) (state : EditorState D) : Prop :=
  sel_empty (st_selection state) = true
  /\ exists nd,
       (if bool_decide (dir = "left"%string \/ dir = "up"%string)
        then nodeBeforeAt (st_doc state) (head (st_selection state))
        else nodeAfterAt (st_doc state) (head (st_selection state))) = Some nd
       /\ isText nd = false /\ isInline nd = true.

End ArrowVocabulary.

(** * Properties *)

(** ** The characters of a fragment *)

Section Chars.
Import PM.

Lemma nodeChars_length c : length (nodeChars c) = length (text c).
Proof. unfold nodeChars. by rewrite length_fmap. Qed.

Lemma textSize_nonneg c : 0 <= textSize c.
Proof. unfold textSize. lia. Qed.

Lemma fragSize_nonneg f : 0 <= fragSize f.
Proof. induction f as [|c f IH]; simpl; [lia|]. pose proof (textSize_nonneg c). lia. Qed.

Lemma chars_length f : Z.of_nat (length (chars f)) = fragSize f.
Proof.
  induction f as [|c f IH]; simpl; [done|].
  rewrite length_app, nodeChars_length. unfold textSize. lia.
Qed.

Lemma chars_app a b : chars (a ++ b) = chars a ++ chars b.
Proof. induction a as [|c a IH]; simpl; [done|]. by rewrite IH, app_assoc. Qed.

Lemma fragSize_app a b : fragSize (a ++ b) = fragSize a + fragSize b.
Proof. induction a as [|c a IH]; simpl; lia. Qed.

Lemma fragSize_zero_chars f : fragSize f = 0 -> chars f = [].
Proof.
  intros Hz. apply nil_length_inv. pose proof (chars_length f). lia.
Qed.

Lemma nodeChars_withText c t : nodeChars (withText c t) = (fun x => (x, marks c)) <$> t.
Proof. done. Qed.

(** *** Forward diff *)

Lemma diffPrefix_spec a b :
  exists k : nat, diffPrefix a b = Z.of_nat k /\ (k <= length a)%nat /\ (k <= length b)%nat
                  /\ take k a = take k b.
Proof.
  revert b. induction a as [|x a IH]; intros [|y b]; simpl;
    try (exists 0%nat; repeat split; simpl; lia).
  case_bool_decide as Hxy.
  - destruct (IH b) as (k & Hk & Ha & Hb & Ht). exists (S k). subst y.
    repeat split; simpl; try lia. by rewrite Ht.
  - exists 0%nat. repeat split; simpl; lia.
Qed.

Lemma take_fmap_marks {A B} (f : A -> B) k (a b : list A) :
  take k a = take k b -> take k (f <$> a) = take k (f <$> b).
Proof. intros Ht. by rewrite <- !fmap_take, Ht. Qed.

Lemma findDiffStart_spec a b pos p :
  findDiffStart a b pos = Some p ->
  exists k : nat, p = pos + Z.of_nat k /\ (k <= length (chars a))%nat
                  /\ (k <= length (chars b))%nat
                  /\ take k (chars a) = take k (chars b).
Proof.
  revert b pos. induction a as [|ca a IH]; intros [|cb b] pos; simpl; intros Hf;
    try discriminate;
    try (injection Hf as <-; exists 0%nat; repeat split; simpl; lia).
  unfold sameMarkupT in Hf. case_bool_decide as Hm; simpl in Hf.
  2:{ injection Hf as <-. exists 0%nat. repeat split; simpl; lia. }
  case_bool_decide as Ht; simpl in Hf.
  - apply IH in Hf as (k & -> & Ha & Hb & Htk).
    exists (length (text ca) + k)%nat. rewrite !length_app, !nodeChars_length.
    unfold textSize. rewrite <- Ht. repeat split; try lia.
    assert (nodeChars ca = nodeChars cb) as Hn by (unfold nodeChars; by rewrite Hm, Ht).
    rewrite <- Hn.
    rewrite <- (nodeChars_length ca), !take_app_add'; by try rewrite Htk.
  - injection Hf as <-.
    destruct (diffPrefix_spec (text ca) (text cb)) as (k & -> & Ha & Hb & Htk).
    exists k. rewrite !length_app, !nodeChars_length. repeat split; try lia.
    rewrite !take_app_le by (rewrite nodeChars_length; lia).
    unfold nodeChars. rewrite Hm. by apply take_fmap_marks.
Qed.

Lemma findDiffStart_None a b pos : findDiffStart a b pos = None -> a = b.
Proof.
  revert b pos. induction a as [|ca a IH]; intros [|cb b] pos; simpl; intros Hf;
    try discriminate; [done|].
  unfold sameMarkupT in Hf. case_bool_decide as Hm; simpl in Hf; [|discriminate].
  case_bool_decide as Ht; simpl in Hf; [|discriminate].
  apply IH in Hf as ->. destruct ca, cb; simpl in *; by subst.
Qed.

Lemma findDiffStart_refl a pos : findDiffStart a a pos = None.
Proof.
  revert pos. induction a as [|c a IH]; intros pos; simpl; [done|].
  unfold sameMarkupT. rewrite !bool_decide_eq_true_2 by done. simpl. apply IH.
Qed.

End Chars.

(** *** Backward diff: the forward diff of the mirrored fragments *)

Section BackwardDiff.
Import PM.

Lemma sameSuffixRev_diffPrefix a b : sameSuffixRev a b = diffPrefix a b.
Proof. reflexivity. Qed.

Lemma findDiffEndRev_mirror ra rb pa pb p :
  findDiffEndRev ra rb (pa - p) (pb - p)
  = (fun k => (pa - k, pb - k)) <$> findDiffStart (revNode <$> ra) (revNode <$> rb) p.
Proof.
  revert rb p. induction ra as [|ca ra IH]; intros [|cb rb] p; simpl; try done.
  unfold sameMarkupT; simpl.
  case_bool_decide as Hm; simpl; [|done].
  assert (bool_decide (rev (text ca) = rev (text cb)) = bool_decide (text ca = text cb)) as ->.
  { apply bool_decide_ext. split; [apply rev_inj | by intros ->]. }
  case_bool_decide as Ht; simpl.
  - replace (pa - p - textSize ca) with (pa - (p + textSize (revNode ca)))
      by (unfold textSize; simpl; rewrite length_rev; lia).
    replace (pb - p - textSize ca) with (pb - (p + textSize (revNode ca)))
      by (unfold textSize; simpl; rewrite length_rev; lia).
    apply IH.
  - unfold sameSuffix. rewrite sameSuffixRev_diffPrefix. f_equal. f_equal; lia.
Qed.

Lemma chars_mirror f : chars (revNode <$> rev f) = rev (chars f).
Proof.
  induction f as [|c f IH]; simpl; [done|].
  rewrite fmap_app, chars_app, IH, rev_app_distr. simpl. rewrite app_nil_r.
  f_equal. unfold nodeChars. simpl. by rewrite <- map_rev.
Qed.

Lemma revNode_inj a b : revNode a = revNode b -> a = b.
Proof.
  destruct a, b. unfold revNode, withText. simpl.
  intros [= Ht ->]. apply rev_inj in Ht. by subst.
Qed.

Lemma findDiffEnd_spec a b endA endB :
  findDiffEnd a b = Some (endA, endB) ->
  exists k : nat,
    endA = fragSize a - Z.of_nat k /\ endB = fragSize b - Z.of_nat k
    /\ (k <= length (chars a))%nat /\ (k <= length (chars b))%nat
    /\ drop (length (chars a) - k) (chars a) = drop (length (chars b) - k) (chars b).
Proof.
  unfold findDiffEnd. intros Hf.
  pose proof (findDiffEndRev_mirror (rev a) (rev b) (fragSize a) (fragSize b) 0) as Hm.
  rewrite !Z.sub_0_r, Hf in Hm.
  destruct (findDiffStart (revNode <$> rev a) (revNode <$> rev b) 0) as [p|] eqn:Hs;
    simpl in Hm; [|discriminate].
  injection Hm as -> ->.
  apply findDiffStart_spec in Hs as (k & -> & Ha & Hb & Ht).
  rewrite !chars_mirror in *. rewrite !length_rev in *.
  exists k. repeat split; try lia.
  rewrite !firstn_rev in Ht. by apply rev_inj in Ht.
Qed.

Lemma findDiffEnd_None a b : findDiffEnd a b = None -> a = b.
Proof.
  unfold findDiffEnd. intros Hf.
  pose proof (findDiffEndRev_mirror (rev a) (rev b) (fragSize a) (fragSize b) 0) as Hm.
  rewrite !Z.sub_0_r, Hf in Hm.
  destruct (findDiffStart (revNode <$> rev a) (revNode <$> rev b) 0) eqn:Hs;
    simpl in Hm; [discriminate|].
  apply findDiffStart_None in Hs.
  assert (Inj eq eq revNode) as Hinj by (intros x y; apply revNode_inj).
  apply (list_fmap_eq_inj revNode Hinj) in Hs. by apply rev_inj.
Qed.

(** When the forward scan finds a difference, so does the backward scan:
    the destructuring in [update] never meets [null]. *)
Lemma findDiffEnd_is_Some a b start :
  findDiffStart a b 0 = Some start -> is_Some (findDiffEnd a b).
Proof.
  intros Hs. destruct (findDiffEnd a b) eqn:He; [eauto|].
  apply findDiffEnd_None in He as ->. by rewrite findDiffStart_refl in Hs.
Qed.

End BackwardDiff.

(** *** Cutting and joining, read on characters *)

Section CutAppend.
Import PM.

Lemma take_eq_min {A} (l : list A) n m :
  (n `min` length l = m `min` length l)%nat -> take n l = take m l.
Proof.
  intros Hmin.
  rewrite <- (take_idemp l n) at 1. 
  destruct (decide (n <= length l)%nat), (decide (m <= length l)%nat).
  - rewrite take_idemp. f_equal. lia.
  - rewrite take_idemp. rewrite (take_ge l m) by lia.
    assert (n = length l) as -> by lia. by rewrite firstn_all.
  - rewrite take_idemp. rewrite (take_ge l n) by lia.
    assert (m = length l) as -> by lia. by rewrite firstn_all.
  - rewrite take_idemp. by rewrite !take_ge by lia.
Qed.

Lemma sub_all {A} (l : list A) (n : Z) : n = Z.of_nat (length l) -> sub l 0 n = l.
Proof. intros ->. unfold sub. simpl. rewrite Z.sub_0_r, Nat2Z.id. apply firstn_all. Qed.

Lemma nodeChars_textCut c from to :
  0 <= from -> nodeChars (textCut c from to) = sub (nodeChars c) from to.
Proof.
  intros Hfrom. unfold textCut.
  case_bool_decide as H0; [case_bool_decide as H1|]; simpl.
  - subst. symmetry. apply sub_all. rewrite nodeChars_length. done.
  - unfold sub, jsSlice, nodeChars. simpl. by rewrite fmap_take, fmap_drop.
  - unfold sub, jsSlice, nodeChars. simpl. by rewrite fmap_take, fmap_drop.
Qed.

Lemma cutLoop_chars cs pos from to :
  chars (cutLoop cs pos from to)
  = take (Z.to_nat (to - Z.max from pos)) (drop (Z.to_nat (from - pos)) (chars cs)).
Proof.
  revert pos. induction cs as [|c cs IH]; intros pos; simpl.
  { by rewrite drop_nil, take_nil. }
  pose proof (nodeChars_length c) as Hlen. unfold textSize in *.
  case_bool_decide as Hpos.
  2:{ simpl. replace (Z.to_nat (to - Z.max from pos)) with 0%nat by lia. done. }
  case_bool_decide as Hend.
  - simpl. rewrite IH.
    rewrite drop_app_le by lia. rewrite take_app. f_equal.
    + assert (nodeChars (if bool_decide (pos < from)
                            || bool_decide (pos + Z.of_nat (length (text c)) > to)
                         then textCut c (Z.max 0 (from - pos))
                                (Z.min (Z.of_nat (length (text c))) (to - pos))
                         else c)
              = sub (nodeChars c) (Z.max 0 (from - pos))
                  (Z.min (Z.of_nat (length (text c))) (to - pos))) as ->.
      { destruct (bool_decide (pos < from) || bool_decide (_ > to)) eqn:Hc.
        - apply nodeChars_textCut. lia.
        - apply orb_false_iff in Hc as [H1 H2].
          apply bool_decide_eq_false in H1. apply bool_decide_eq_false in H2.
          replace (Z.max 0 (from - pos)) with 0 by lia.
          symmetry. rewrite Z.min_l by lia. apply sub_all. lia. }
      unfold sub. replace (Z.to_nat (Z.max 0 (from - pos))) with (Z.to_nat (from - pos)) by lia.
      apply take_eq_min. rewrite length_drop. lia.
    + replace (Z.to_nat (from - (pos + Z.of_nat (length (text c))))) with 0%nat by lia.
      simpl. f_equal. rewrite length_drop. lia.
  - rewrite IH. rewrite drop_app_ge by lia. f_equal; [lia|]. f_equal. lia.
Qed.

Lemma cut_chars f from to :
  0 <= from -> chars (cut f from to) = sub (chars f) from to.
Proof.
  intros Hfrom. unfold cut.
  case_bool_decide as H0; [case_bool_decide as H1|]; simpl.
  - subst. symmetry. apply sub_all. by rewrite chars_length.
  - case_bool_decide.
    + rewrite cutLoop_chars. unfold sub. f_equal; [lia|]. f_equal. lia.
    + unfold sub. by replace (Z.to_nat (to - from)) with 0%nat by lia.
  - case_bool_decide.
    + rewrite cutLoop_chars. unfold sub. f_equal; [lia|]. f_equal. lia.
    + unfold sub. by replace (Z.to_nat (to - from)) with 0%nat by lia.
Qed.

Lemma rev_cons_inv {A} (l r : list A) x : rev l = x :: r -> l = rev r ++ [x].
Proof. intros Hr. rewrite <- (rev_involutive l), Hr. done. Qed.

Lemma append_chars a b : chars (append a b) = chars a ++ chars b.
Proof.
  unfold append. case_bool_decide as Hb.
  { by rewrite (fragSize_zero_chars b), app_nil_r. }
  case_bool_decide as Ha.
  { by rewrite (fragSize_zero_chars a). }
  destruct (rev a) as [|last ra] eqn:Hr; [by rewrite chars_app|].
  destruct b as [|first b']; [by rewrite chars_app|].
  unfold sameMarkupT. case_bool_decide as Hm; [|by rewrite chars_app].
  apply rev_cons_inv in Hr as ->.
  rewrite !chars_app. simpl. rewrite app_nil_r, <- !app_assoc. f_equal.
  rewrite app_assoc. f_equal. unfold nodeChars. simpl. rewrite fmap_app. by rewrite Hm.
Qed.

Lemma addNode_chars c t : chars (addNode c t) = chars t ++ nodeChars c.
Proof.
  unfold addNode. destruct (rev t) as [|last rt] eqn:Hr.
  { rewrite <- (rev_involutive t), Hr. simpl. by rewrite app_nil_r. }
  apply rev_cons_inv in Hr as ->.
  unfold sameMarkupT. case_bool_decide as Hm.
  - rewrite !chars_app. simpl. rewrite !app_nil_r, <- app_assoc. f_equal.
    unfold nodeChars. simpl. rewrite fmap_app. by rewrite Hm.
  - rewrite !chars_app. simpl. by rewrite !app_nil_r.
Qed.

Lemma addNodes_chars cs t : chars (addNodes cs t) = chars t ++ chars cs.
Proof.
  revert t. unfold addNodes. induction cs as [|c cs IH]; intros t; simpl.
  - by rewrite app_nil_r.
  - by rewrite IH, addNode_chars, <- app_assoc.
Qed.

End CutAppend.

(** *** Resolving a position and replacing a range *)

Section Replace.
Import PM.

Lemma chars_split f j : chars f = chars (take j f) ++ chars (drop j f).
Proof. by rewrite <- chars_app, take_drop. Qed.

Lemma chars_take_length f j : Z.of_nat (length (chars (take j f))) = fragSize (take j f).
Proof. apply chars_length. Qed.

Lemma findIndexLoop_spec cs i cur pos :
  cur < pos <= cur + fragSize cs ->
  exists k off,
    findIndexLoop cs i cur pos = ((i + k)%nat, off)
    /\ (k <= length cs)%nat /\ off = cur + fragSize (take k cs) /\ off <= pos
    /\ (pos = off \/ exists c, cs !! k = Some c /\ pos - off < textSize c).
Proof.
  revert i cur. induction cs as [|c cs IH]; intros i cur Hr; simpl in *; [lia|].
  case_bool_decide as Hend; [case_bool_decide as Heq|].
  - exists 1%nat, (cur + textSize c). simpl. rewrite ?take_0. simpl.
    repeat split; try lia. by rewrite Nat.add_1_r.
  - exists 0%nat, cur. simpl. rewrite Nat.add_0_r.
    repeat split; try lia. right. exists c. split; [done|lia].
  - destruct (IH (S i) (cur + textSize c)) as (k & off & Hl & Hk & Hoff & Hle & Hc); [lia|].
    exists (S k), off. simpl. rewrite Hl.
    repeat split; try lia; [by rewrite Nat.add_succ_r|done].
Qed.

(** What [resolve] knows about a position in range. *)
Lemma resolve_spec doc pos :
  0 <= pos <= fragSize (content doc) ->
  exists r, resolve doc pos = Ok r /\ rpos r = pos
    /\ (rindex r <= length (content doc))%nat
    /\ roffset r = fragSize (take (rindex r) (content doc))
    /\ 0 <= textOffset r
    /\ (textOffset r = 0
        \/ exists c, content doc !! rindex r = Some c /\ textOffset r < textSize c).
Proof.
  intros Hr. unfold resolve.
  rewrite !bool_decide_eq_true_2 by lia. simpl. unfold findIndex.
  case_bool_decide as H0; [|case_bool_decide as H1].
  - eexists. split; [done|]. unfold textOffset. simpl. subst.
    rewrite ?take_0. simpl. repeat split; try lia.
  - eexists. split; [done|]. unfold textOffset. simpl.
    rewrite firstn_all. repeat split; try lia.
  - destruct (findIndexLoop_spec (content doc) 0 0 pos) as (k & off & Hl & Hk & Hoff & Hle & Hc);
      [lia|].
    rewrite Hl. eexists. split; [done|]. unfold textOffset. simpl.
    repeat split; try lia.
    destruct Hc as [->|(c & Hc & Hlt)]; [left; lia|].
    destruct (decide (pos - off = 0)); [by left|right; eauto].
Qed.

Lemma resolve_Ok_inv doc pos r :
  resolve doc pos = Ok r -> 0 <= pos <= fragSize (content doc).
Proof.
  unfold resolve.
  destruct (bool_decide (pos >= 0)) eqn:H1; [|done].
  destruct (bool_decide (pos <= fragSize (content doc))) eqn:H2; [|done].
  apply bool_decide_eq_true in H1. apply bool_decide_eq_true in H2. intros _. lia.
Qed.

Lemma chars_child_split f i c :
  f !! i = Some c -> chars f = chars (take i f) ++ nodeChars c ++ chars (drop (S i) f).
Proof.
  intros Hc. rewrite (chars_split f i). f_equal.
  by rewrite (drop_S _ _ _ Hc).
Qed.

(** The children and partial child before a resolved position hold the
    characters before it. *)
Lemma addRange_before_chars doc pos r :
  resolve doc pos = Ok r ->
  chars (addRange (content doc) None (Some r) []) = take (Z.to_nat pos) (chars (content doc)).
Proof.
  intros Hres. pose proof (resolve_Ok_inv _ _ _ Hres) as Hr.
  destruct (resolve_spec doc pos Hr) as (r' & Hres' & Hp & Hi & Hoff & Hto & Hc).
  rewrite Hres in Hres'. injection Hres' as <-.
  unfold addRange. rewrite Nat.sub_0_r, drop_0.
  pose proof (chars_take_length (content doc) (rindex r)) as Hlen.
  unfold textOffset in *.
  case_bool_decide as Hz.
  - rewrite addNodes_chars. simpl.
    rewrite (chars_split (content doc) (rindex r)).
    rewrite take_app_length'; [done|lia].
  - destruct Hc as [Hc|(c & Hc & Hlt)]; [lia|].
    unfold nodeBefore, textOffset. rewrite bool_decide_eq_false_2 by lia.
    rewrite Hc. simpl. rewrite addNode_chars, addNodes_chars. simpl.
    rewrite nodeChars_textCut by lia.
    rewrite (chars_child_split _ _ _ Hc).
    rewrite take_app_ge by lia. f_equal.
    rewrite take_app_le by (rewrite nodeChars_length; unfold textSize in Hlt; lia).
    unfold sub. simpl. rewrite drop_0. f_equal. lia.
Qed.

(** The partial child and children after a resolved position hold the
    characters after it. *)
Lemma addRange_after_chars doc pos r target :
  resolve doc pos = Ok r ->
  chars (addRange (content doc) (Some r) None target)
  = chars target ++ drop (Z.to_nat pos) (chars (content doc)).
Proof.
  intros Hres. pose proof (resolve_Ok_inv _ _ _ Hres) as Hr.
  destruct (resolve_spec doc pos Hr) as (r' & Hres' & Hp & Hi & Hoff & Hto & Hc).
  rewrite Hres in Hres'. injection Hres' as <-.
  unfold addRange.
  pose proof (chars_take_length (content doc) (rindex r)) as Hlen.
  unfold textOffset in *.
  case_bool_decide as Hz.
  - rewrite addNodes_chars. f_equal.
    rewrite take_ge by (rewrite length_drop; lia).
    rewrite (chars_split (content doc) (rindex r)).
    rewrite drop_app_length'; [done|lia].
  - destruct Hc as [Hc|(c & Hc & Hlt)]; [lia|].
    unfold nodeAfter, textOffset. rewrite bool_decide_eq_false_2 by lia.
    rewrite Hc. simpl. rewrite addNodes_chars, addNode_chars.
    rewrite nodeChars_textCut by lia. rewrite <- app_assoc. f_equal.
    rewrite take_ge by (rewrite length_drop; lia).
    rewrite (chars_child_split _ _ _ Hc).
    rewrite drop_app_ge by lia.
    rewrite drop_app_le by (rewrite nodeChars_length; unfold textSize in Hlt; lia).
    f_equal. unfold sub. rewrite take_ge.
    + f_equal. lia.
    + rewrite length_drop, nodeChars_length. unfold textSize. lia.
Qed.

(** [Node.replace] on characters: what lies before [from], the slice, what
    lies after [to]. *)
Lemma replace_chars doc from to slice :
  0 <= from <= fragSize (content doc) ->
  0 <= to <= fragSize (content doc) ->
  exists doc',
    replace doc from to slice = Ok doc'
    /\ sameMarkup doc' doc = true
    /\ chars (content doc')
       = take (Z.to_nat from) (chars (content doc)) ++ chars (slice_content slice)
         ++ drop (Z.to_nat to) (chars (content doc)).
Proof.
  intros Hf Ht. unfold replace.
  destruct (resolve_spec doc from Hf) as (rf & Hrf & Hpf & _).
  destruct (resolve_spec doc to Ht) as (rt & Hrt & Hpt & _).
  rewrite Hrf, Hrt. simpl.
  assert (forall c, sameMarkup (copy doc c) doc = true) as Hsm.
  { intros c. unfold sameMarkup, copy. simpl. by rewrite !bool_decide_eq_true_2. }
  case_bool_decide as Hs.
  - eexists. split; [done|]. split; [apply Hsm|]. simpl. unfold replaceTwoWay.
    rewrite (addRange_after_chars doc to rt _ Hrt).
    rewrite (addRange_before_chars doc from rf Hrf).
    unfold sliceSize in Hs. by rewrite (fragSize_zero_chars _ Hs).
  - eexists. split; [done|]. split; [apply Hsm|]. simpl.
    rewrite !append_chars, !cut_chars by lia. rewrite Hpf, Hpt, <- app_assoc.
    unfold sub. rewrite Z.sub_0_r, drop_0. f_equal. f_equal.
    rewrite take_ge; [done|]. rewrite length_drop.
    pose proof (chars_length (content doc)). lia.
Qed.

End Replace.

(** *** Fragments in joined form *)

Section Normalized.
Import PM.

Lemma normalized_app a b :
  normalized (a ++ b) <->
  normalized a /\ normalized b
  /\ (forall x y, last a = Some x -> hd_error b = Some y -> marks x <> marks y).
Proof.
  induction a as [|c a IH]; simpl.
  { split; [intros Hb; repeat split; [done|]; intros x y; discriminate|tauto]. }
  destruct a as [|c' a]; simpl in *.
  - destruct b as [|d b]; simpl.
    + split; [intros (?&?&?); repeat split; try done; intros x y _; discriminate|tauto].
    + split.
      * intros (?&?&?&?&?). repeat split; try done. intros x y [= <-] [= <-]. done.
      * intros ((?&_&_)&(?&?&?)&Hj). repeat split; try done. by apply Hj.
  - rewrite IH. clear IH. split.
    + intros (?&?&?&?&?). repeat split; tauto.
    + intros ((?&?&?)&?&?). repeat split; tauto.
Qed.

Lemma normalized_snoc t c :
  normalized (t ++ [c]) <->
  normalized t /\ text c <> [] /\ (forall x, last t = Some x -> marks x <> marks c).
Proof.
  rewrite normalized_app. simpl. split.
  - intros (?&(?&_)&Hj). repeat split; try done. intros x Hx. by apply Hj.
  - intros (?&?&Hj). repeat split; try done. intros x y Hx [= <-]. by apply Hj.
Qed.

Lemma normalized_Forall f : normalized f -> Forall (fun c => text c <> []) f.
Proof.
  induction f as [|c f IH]; simpl; [constructor|].
  intros (?&?&?). constructor; auto.
Qed.

Lemma normalized_take f j : normalized f -> normalized (take j f).
Proof. intros Hn. rewrite <- (take_drop j f) in Hn. by apply normalized_app in Hn as (?&?&?). Qed.

Lemma normalized_drop f j : normalized f -> normalized (drop j f).
Proof. intros Hn. rewrite <- (take_drop j f) in Hn. by apply normalized_app in Hn as (?&?&?). Qed.

Lemma addNode_normalized c t :
  normalized t -> text c <> [] -> normalized (addNode c t).
Proof.
  intros Ht Hc. unfold addNode. destruct (rev t) as [|l rt] eqn:Hr.
  { simpl. done. }
  apply rev_cons_inv in Hr as ->.
  apply normalized_snoc in Ht as (Hrt & Hl & Hj).
  unfold sameMarkupT. case_bool_decide as Hm.
  - apply normalized_snoc. split; [done|]. split.
    + simpl. destruct (text l); [done|discriminate].
    + intros x Hx. simpl. rewrite Hm. by apply Hj.
  - apply normalized_snoc. split; [by apply normalized_snoc|]. split; [done|].
    intros x. rewrite last_snoc. intros [= <-]. congruence.
Qed.

Lemma addNodes_normalized cs t :
  Forall (fun c => text c <> []) cs -> normalized t -> normalized (addNodes cs t).
Proof.
  unfold addNodes. intros Hcs. revert t.
  induction Hcs as [|c cs Hc Hcs IH]; intros t Ht; simpl; [done|].
  apply IH. by apply addNode_normalized.
Qed.

Lemma textCut_marks c from to : marks (textCut c from to) = marks c.
Proof. unfold textCut. by destruct (_ && _). Qed.

Lemma textCut_nonempty c from to :
  0 <= from -> from < to -> from < textSize c -> text (textCut c from to) <> [].
Proof.
  intros H0 Hlt Hsz. unfold textCut, textSize in *.
  destruct (_ && _).
  - intros Hn. rewrite Hn in Hsz. simpl in Hsz. lia.
  - simpl. unfold jsSlice. intros Hn. apply (f_equal length) in Hn.
    rewrite length_take, length_drop in Hn. simpl in Hn. lia.
Qed.

Lemma cutLoop_head cs pos from to y :
  from < pos -> hd_error (cutLoop cs pos from to) = Some y ->
  exists c0, hd_error cs = Some c0 /\ marks y = marks c0.
Proof.
  intros Hp. destruct cs as [|c cs]; simpl; [done|].
  pose proof (textSize_nonneg c).
  case_bool_decide; [|done].
  rewrite bool_decide_eq_true_2 by lia. simpl.
  intros [= <-]. exists c. split; [done|].
  destruct (_ || _); [apply textCut_marks|done].
Qed.

Lemma cutLoop_normalized cs pos from to :
  normalized cs -> from < to -> normalized (cutLoop cs pos from to).
Proof.
  intros Hn Hlt. revert pos Hn. induction cs as [|c cs IH]; intros pos Hn; simpl; [done|].
  destruct Hn as (Hc & Hb & Hn).
  assert (0 < textSize c) as Hsz.
  { unfold textSize. destruct (text c); [done|simpl; lia]. }
  case_bool_decide as Hpos; [|done].
  case_bool_decide as Hend; [|by apply IH].
  simpl. split; [|split; [|by apply IH]].
  - destruct (_ || _); [|done]. apply textCut_nonempty; lia.
  - destruct (cutLoop cs (pos + textSize c) from to) as [|y rest] eqn:Hcl; [done|].
    destruct (cutLoop_head cs (pos + textSize c) from to y) as (c0 & Hh & Hm);
      [lia|by rewrite Hcl|].
    destruct cs as [|c1 cs]; [done|]. simpl in Hh. injection Hh as ->.
    rewrite Hm. destruct (_ || _); [by rewrite textCut_marks|done].
Qed.

Lemma cut_normalized f from to : normalized f -> normalized (cut f from to).
Proof.
  intros Hn. unfold cut. destruct (_ && _); [done|].
  case_bool_decide; [|done]. apply cutLoop_normalized; [done|lia].
Qed.

Lemma append_normalized a b : normalized a -> normalized b -> normalized (append a b).
Proof.
  intros Ha Hb. unfold append.
  case_bool_decide; [done|]. case_bool_decide; [done|].
  destruct (rev a) as [|l ra] eqn:Hr.
  { rewrite <- (rev_involutive a), Hr. done. }
  destruct b as [|first b']; [by rewrite app_nil_r|].
  apply rev_cons_inv in Hr. subst a.
  unfold sameMarkupT. case_bool_decide as Hm.
  - apply normalized_snoc in Ha as (Hra & Hl & Hj).
    destruct Hb as (Hf & Hb1 & Hb').
    apply normalized_app. split; [done|]. split.
    + simpl. split; [destruct (text l); [done|discriminate]|]. split; [|done].
      destruct b'; [done|]. by rewrite Hm.
    + intros x y Hx [= <-]. simpl. by apply Hj.
  - apply normalized_app. split; [done|]. split; [done|].
    intros x y. rewrite last_snoc. intros [= <-] [= <-]. done.
Qed.

Lemma norm_cons x m l :
  norm ((x, m) :: l)
  = match norm l with
    | c :: r =>
        if bool_decide (marks c = m)
        then {| text := x :: text c; marks := m |} :: r
        else {| text := [x]; marks := m |} :: c :: r
    | [] => [{| text := [x]; marks := m |}]
    end.
Proof. done. Qed.

Lemma norm_run t m l :
  t <> [] ->
  match norm l with [] => True | c' :: _ => marks c' <> m end ->
  norm (((fun x => (x, m)) <$> t) ++ l) = {| text := t; marks := m |} :: norm l.
Proof.
  intros Ht Hm. induction t as [|x t IH]; [done|].
  rewrite fmap_cons, <- app_comm_cons, norm_cons.
  destruct t as [|x' t].
  - simpl. destruct (norm l) as [|c r]; [done|].
    by rewrite bool_decide_eq_false_2.
  - rewrite IH by done. simpl. by rewrite bool_decide_eq_true_2.
Qed.

Lemma norm_chars f : normalized f -> norm (chars f) = f.
Proof.
  induction f as [|c f IH]; simpl; [done|].
  intros (Hc & Hb & Hn). specialize (IH Hn).
  unfold nodeChars. rewrite norm_run; [|done|].
  - rewrite IH. by destruct c.
  - rewrite IH. destruct f; [done|]. congruence.
Qed.

(** Two fragments in joined form with the same characters are the same
    fragment. *)
Lemma normalized_chars_inj a b :
  normalized a -> normalized b -> chars a = chars b -> a = b.
Proof.
  intros Ha Hb Hc. rewrite <- (norm_chars a Ha), <- (norm_chars b Hb). by rewrite Hc.
Qed.

End Normalized.

(** *** The range that [update] replaces *)

Section DiffRange.
Import PM.

Lemma drop_suffix_mono {A} (a b : list A) k k' :
  (k' <= k)%nat -> (k <= length a)%nat -> (k <= length b)%nat ->
  drop (length a - k) a = drop (length b - k) b ->
  drop (length a - k') a = drop (length b - k') b.
Proof.
  intros Hk Ha Hb Hd.
  replace (length a - k')%nat with ((length a - k) + (k - k'))%nat by lia.
  replace (length b - k')%nat with ((length b - k) + (k - k'))%nat by lia.
  by rewrite <- !drop_drop, Hd.
Qed.

Lemma rebuild_from_diff {A} (a b : list A) (s ea eb : nat) :
  (s <= ea)%nat -> (ea <= length a)%nat ->
  take s a = take s b -> drop ea a = drop eb b ->
  take s b ++ take (ea - s) (drop s a) ++ drop eb b = a.
Proof.
  intros Hs He Ht Hd. rewrite <- Ht, <- Hd.
  rewrite <- (take_drop s a) at 4. f_equal.
  rewrite <- (take_drop (ea - s) (drop s a)) at 2. f_equal.
  rewrite drop_drop. f_equal. lia.
Qed.

(** After the overlap correction the range is well-formed on both sides,
    and replacing it rebuilds the new content. *)
Lemma diff_range_sound a b start endA endB :
  findDiffStart a b 0 = Some start ->
  findDiffEnd a b = Some (endA, endB) ->
  let '(endA', endB') := LiquidView.widen start endA endB in
  0 <= start /\ start <= endA' <= fragSize a /\ start <= endB' <= fragSize b
  /\ take (Z.to_nat start) (chars b) ++ sub (chars a) start endA'
     ++ drop (Z.to_nat endB') (chars b) = chars a.
Proof.
  intros Hs He.
  apply findDiffStart_spec in Hs as (k1 & -> & Ha1 & Hb1 & Ht).
  apply findDiffEnd_spec in He as (k2 & -> & -> & Ha2 & Hb2 & Hd).
  pose proof (chars_length a) as Hla. pose proof (chars_length b) as Hlb.
  unfold LiquidView.widen.
  set (overlap := 0 + Z.of_nat k1 - Z.min (fragSize a - Z.of_nat k2) (fragSize b - Z.of_nat k2)).
  assert (exists k2' : nat, (k2' <= k2)%nat
            /\ (k1 + k2' <= length (chars a))%nat /\ (k1 + k2' <= length (chars b))%nat
            /\ (if overlap >? 0
                then (fragSize a - Z.of_nat k2 + overlap, fragSize b - Z.of_nat k2 + overlap)
                else (fragSize a - Z.of_nat k2, fragSize b - Z.of_nat k2))
               = (fragSize a - Z.of_nat k2', fragSize b - Z.of_nat k2')) as (k2' & Hk & Hka & Hkb & ->).
  { destruct (overlap >? 0) eqn:Ho.
    - exists (k2 - Z.to_nat overlap)%nat. subst overlap.
      repeat split; try lia. f_equal; lia.
    - exists k2. subst overlap. repeat split; try lia. }
  repeat split; try lia.
  pose proof (drop_suffix_mono _ _ _ _ Hk Ha2 Hb2 Hd) as Hd'.
  unfold sub.
  replace (Z.to_nat (0 + Z.of_nat k1)) with k1 by lia.
  replace (Z.to_nat (fragSize a - Z.of_nat k2' - (0 + Z.of_nat k1)))
    with (length (chars a) - k2' - k1)%nat by lia.
  replace (Z.to_nat (fragSize b - Z.of_nat k2')) with (length (chars b) - k2')%nat by lia.
  apply rebuild_from_diff; try lia; done.
Qed.

End DiffRange.

(** *** Replacing keeps the joined form; positions map into the result *)

Section ReplaceNormalized.
Import PM.

Lemma nonempty_textSize c : text c <> [] -> 0 < textSize c.
Proof. unfold textSize. destruct (text c); [done|simpl; lia]. Qed.

Lemma addRange_normalized f rs re target :
  normalized f -> normalized target ->
  (forall r, rs = Some r -> goodPos f r) ->
  (forall r, re = Some r -> goodPos f r) ->
  normalized (addRange f rs re target).
Proof.
  intros Hf Ht Hs He. unfold addRange.
  set (endIndex := match re with Some e => rindex e | None => List.length f end).
  assert (forall si tg, normalized tg ->
            normalized (match re with
                        | Some e => if bool_decide (textOffset e = 0)
                                    then addNodes (take (endIndex - si) (drop si f)) tg
                                    else addNodeOpt (nodeBefore f e)
                                           (addNodes (take (endIndex - si) (drop si f)) tg)
                        | None => addNodes (take (endIndex - si) (drop si f)) tg
                        end)) as Hrest.
  { intros si tg Htg.
    assert (normalized (addNodes (take (endIndex - si) (drop si f)) tg)) as Hmid.
    { apply addNodes_normalized; [|done].
      apply normalized_Forall, normalized_take, normalized_drop, Hf. }
    destruct re as [e|]; [|done]. case_bool_decide as Hz; [done|].
    destruct (He e eq_refl) as (H0 & [Hc|(c & Hc & Hne & Hlt)]); [done|].
    unfold nodeBefore. rewrite bool_decide_eq_false_2 by done. rewrite Hc. simpl.
    apply addNode_normalized; [done|]. apply textCut_nonempty; lia. }
  destruct rs as [s|]; [|by apply Hrest].
  case_bool_decide as Hz; [by apply Hrest|].
  apply Hrest.
  destruct (Hs s eq_refl) as (H0 & [Hc|(c & Hc & Hne & Hlt)]); [done|].
  unfold nodeAfter. rewrite Hc, bool_decide_eq_false_2 by done. simpl.
  apply addNode_normalized; [done|]. apply textCut_nonempty; lia.
Qed.

Lemma resolve_goodPos doc pos r :
  normalized (content doc) -> resolve doc pos = Ok r -> goodPos (content doc) r.
Proof.
  intros Hn Hres. pose proof (resolve_Ok_inv _ _ _ Hres) as Hr.
  destruct (resolve_spec doc pos Hr) as (r' & Hres' & Hp & Hi & Hoff & Hto & Hc).
  rewrite Hres in Hres'. injection Hres' as <-.
  split; [done|]. destruct Hc as [Hc|(c & Hc & Hlt)]; [by left|right].
  exists c. repeat split; try done.
  apply normalized_Forall in Hn. rewrite Forall_lookup in Hn. by apply (Hn _ _ Hc).
Qed.

Lemma replace_normalized doc from to slice doc' :
  normalized (content doc) -> normalized (slice_content slice) ->
  replace doc from to slice = Ok doc' -> normalized (content doc').
Proof.
  intros Hd Hs. unfold replace.
  destruct (resolve doc from) as [rf|] eqn:Hrf; [|done].
  destruct (resolve doc to) as [rt|] eqn:Hrt; [|done]. simpl.
  case_bool_decide; intros [= <-]; simpl.
  - unfold replaceTwoWay.
    apply addRange_normalized; try done.
    + apply addRange_normalized; try done.
      intros r [= <-]. by eapply resolve_goodPos.
    + intros r [= <-]. by eapply resolve_goodPos.
  - apply append_normalized; [apply append_normalized|]; try done;
      by apply cut_normalized.
Qed.

(** A position of the old document, mapped through the map of one replace
    step, is a position of the new document. *)
Lemma mapPos_replace_range from to size pos docSize :
  0 <= from -> from <= to -> to <= docSize -> 0 <= size ->
  0 <= pos <= docSize ->
  0 <= mapPos [(from, to - from, size)] pos 1 <= docSize - (to - from) + size.
Proof.
  intros H0 Hft Ht Hs Hp. unfold mapPos, mapResult. simpl.
  destruct (from >? pos) eqn:H1; simpl; [lia|].
  destruct (pos <=? from + (to - from)) eqn:H2; simpl; [|lia].
  repeat match goal with |- context [if ?b then _ else _] => destruct b end; lia.
Qed.

End ReplaceNormalized.

(** ** The controller *)

Section UpdateFacts.
Import PM.
Local Arguments mapPos : simpl never.

Lemma nodeSlice_spec n from to :
  0 <= from -> from <= to -> to <= fragSize (content n) ->
  exists slice, nodeSlice n from to = Ok slice
    /\ chars (slice_content slice) = sub (chars (content n)) from to
    /\ (normalized (content n) -> normalized (slice_content slice)).
Proof.
  intros H0 Hft Ht. unfold nodeSlice. case_bool_decide as Heq.
  - exists Slice_empty. split; [done|]. split; [|done]. subst. unfold sub.
    by rewrite Z.sub_diag.
  - destruct (resolve_spec n from) as (r1 & -> & _); [lia|].
    destruct (resolve_spec n to) as (r2 & -> & _); [lia|]. simpl.
    eexists. split; [done|]. simpl. split; [by apply cut_chars|apply cut_normalized].
Qed.

Lemma sub_length {A} (l : list A) from to :
  0 <= from -> from <= to -> to <= Z.of_nat (List.length l) ->
  Z.of_nat (List.length (sub l from to)) = to - from.
Proof. intros. unfold sub. rewrite length_take, length_drop. lia. Qed.

Lemma updateTr_spec n st start endA endB :
  0 <= start -> start <= endA <= fragSize (content n) ->
  start <= endB <= fragSize (content (st_doc st)) ->
  stateOk st ->
  exists tr sel,
    LiquidView.updateTr n st start endA endB = Ok tr
    /\ getMeta tr "fromOutside" = Some (MBool true)
    /\ tr_before tr = st_doc st
    /\ sameMarkup (tr_doc tr) (st_doc st) = true
    /\ chars (content (tr_doc tr))
       = take (Z.to_nat start) (chars (content (st_doc st)))
         ++ sub (chars (content n)) start endA
         ++ drop (Z.to_nat endB) (chars (content (st_doc st)))
    /\ trSelection tr = Ok sel /\ selIn sel (tr_doc tr)
    /\ (normalized (content n) -> normalized (content (st_doc st)) ->
        normalized (content (tr_doc tr))).
Proof.
  intros H0 HA HB Hst. unfold LiquidView.updateTr.
  destruct (nodeSlice_spec n start endA) as (slice & -> & Hsc & Hsn); try lia. simpl.
  pose proof (chars_length (content n)) as HlA.
  pose proof (chars_length (content (st_doc st))) as HlB.
  pose proof (chars_length (slice_content slice)) as Hls.
  rewrite Hsc, sub_length in Hls by lia.
  unfold trReplace, replaceStep. simpl.
  destruct (bool_decide (start = endB) && bool_decide (sliceSize slice = 0)) eqn:Hnull.
  - apply andb_true_iff in Hnull as [He Hz].
    apply bool_decide_eq_true in He. apply bool_decide_eq_true in Hz. subst endB.
    simpl. eexists _, (st_selection st). split; [done|].
    split; [apply lookup_insert_eq|]. split; [done|].
    split; [unfold sameMarkup; by rewrite !bool_decide_eq_true_2|].
    simpl. split; [|split; [done|split; [done|done]]].
    rewrite <- Hsc. unfold sliceSize in Hz. rewrite (fragSize_zero_chars _ Hz). simpl.
    by rewrite take_drop.
  - unfold resolveCheck. simpl.
    rewrite !bool_decide_eq_true_2 by lia. simpl.
    unfold step. simpl. unfold stepApplyNode. simpl.
    destruct (replace_chars (st_doc st) start endB slice) as (doc' & Hrep & Hsm & Hch);
      try lia.
    rewrite Hrep. simpl. rewrite Hsc in Hch.
    pose proof (chars_length (content doc')) as Hl'.
    rewrite Hch, !length_app, length_take, length_drop in Hl'.
    pose proof (sub_length (chars (content n)) start endA) as Hsl.
    destruct Hst as [Ha Hh].
    unfold sliceSize in *.
    pose proof (mapPos_replace_range start endB (fragSize (slice_content slice))
                  (anchor (st_selection st)) (fragSize (content (st_doc st)))
                  ltac:(lia) ltac:(lia) ltac:(lia) ltac:(lia) Ha) as Hma.
    pose proof (mapPos_replace_range start endB (fragSize (slice_content slice))
                  (head (st_selection st)) (fragSize (content (st_doc st)))
                  ltac:(lia) ltac:(lia) ltac:(lia) ltac:(lia) Hh) as Hmh.
    eexists _, _. split; [done|].
    split; [apply lookup_insert_eq|]. split; [done|]. split; [done|]. split; [done|].
    simpl. unfold trSelection, mapSelection, resolveCheck, getMap, sliceSize. simpl.
    rewrite !bool_decide_eq_true_2 by lia. simpl.
    split; [done|]. split.
    + unfold selIn. simpl. lia.
    + intros HnA HnB. eapply replace_normalized; [exact HnB|exact (Hsn HnA)|exact Hrep].
Qed.

End UpdateFacts.

Section ControllerFacts.
Import PM.
Context {OuterDoc : Type} `{Document OuterDoc}.

Abbreviation View := LiquidView.LiquidView.
Abbreviation Host := (LiquidView.Host OuterDoc).

(** A transaction tagged as coming from outside only updates the inner
    state. *)
Lemma dispatchInner_tagged (h : Host) tr (v : View) st st' trs :
  LiquidView.innerView v = Some st ->
  truthy (getMeta tr "fromOutside") = true ->
  applyTransaction st tr = Ok (st', trs) ->
  LiquidView.dispatchInner h tr v
  = LiquidView.returns tt
      {| LiquidView.node := LiquidView.node v; LiquidView.innerView := Some st' |} [].
Proof.
  intros Hv Hm Ha. unfold LiquidView.dispatchInner. by rewrite Hv, Ha, Hm.
Qed.

(** The constructor binds the node: the inner document is the node, the
    inner cursor is at 0, and the outer view is not called. *)
Lemma construct_binds (h : Host) n :
  LiquidView.construct h n
  = LiquidView.returns tt
      {| LiquidView.node := n;
         LiquidView.innerView :=
           Some {| st_doc := n; st_selection := {| anchor := 0; head := 0 |} |} |}
      [LiquidView.InnerFocus].
Proof.
  pose proof (fragSize_nonneg (content n)) as Hn.
  unfold LiquidView.construct, LiquidView.setSelection. simpl.
  unfold TextSelection_create, resolveCheck. simpl.
  rewrite !bool_decide_eq_true_2 by lia. simpl.
  unfold LiquidView.dispatchInner. simpl.
  unfold applyTransaction, applyInner. simpl.
  rewrite bool_decide_eq_true_2 by done. simpl. done.
Qed.

(** [update] with a compatible node: it returns [true], makes no call on
    the outer view, and leaves the inner document with the characters of the
    new node. *)
Lemma update_sync (h : Host) n (v : View) st :
  LiquidView.innerView v = Some st ->
  sameMarkup n (LiquidView.node v) = true ->
  stateOk st ->
  exists st',
    LiquidView.update h n v
    = LiquidView.returns true
        {| LiquidView.node := n; LiquidView.innerView := Some st' |} []
    /\ stateOk st'
    /\ sameMarkup (st_doc st') (st_doc st) = true
    /\ chars (content (st_doc st')) = chars (content n)
    /\ (normalized (content n) -> normalized (content (st_doc st)) ->
        content (st_doc st') = content n).
Proof.
  intros Hv Hsm Hst. unfold LiquidView.update. rewrite Hsm. simpl. rewrite Hv.
  destruct (findDiffStart (content n) (content (st_doc st)) 0) as [start|] eqn:Hs.
  2:{ apply findDiffStart_None in Hs. exists st. rewrite <- Hs.
      split; [done|]. split; [done|]. split; [|done].
      unfold sameMarkup. by rewrite !bool_decide_eq_true_2. }
  destruct (findDiffEnd_is_Some _ _ _ Hs) as [[endA endB] He]. rewrite He.
  pose proof (diff_range_sound _ _ _ _ _ Hs He) as Hd.
  destruct (LiquidView.widen start endA endB) as [endA' endB'].
  destruct Hd as (H0 & HA & HB & Hre).
  destruct (updateTr_spec n st start endA' endB' H0 HA HB Hst)
    as (tr & sel & -> & Hmeta & Hbefore & Hsm' & Hch & Hsel & Hin & Hnorm).
  assert (applyTransaction st tr
          = Ok ({| st_doc := tr_doc tr; st_selection := sel |}, [tr])) as Happ.
  { unfold applyTransaction, applyInner.
    rewrite bool_decide_eq_true_2 by done. simpl. by rewrite Hsel. }
  erewrite dispatchInner_tagged; [|done|by rewrite Hmeta|exact Happ]. simpl.
  eexists. split; [done|]. simpl. split; [done|]. split; [done|].
  rewrite Hch, Hre. split; [done|].
  intros HnA HnB. apply normalized_chars_inj; [by apply Hnorm|done|].
  by rewrite Hch, Hre.
Qed.

End ControllerFacts.


(** ** Inner edits in outer coordinates *)

Section Propagation.
Import PM.
Context {OuterDoc : Type} `{Document OuterDoc}.

(** A position mapped through [StepMap.offset(n)]: position 0 stays when
    the mapping is asked for the left side, every other position moves. *)
Lemma mapResult_offset n pos assoc :
  0 < n -> 0 <= pos ->
  mr_pos (mapResult (offset n) pos assoc)
  = (if (pos =? 0) && (assoc <? 0) then 0 else pos + n)
  /\ deletedAcross (mapResult (offset n) pos assoc) = false.
Proof.
  intros Hn Hp. unfold offset, mapResult, deletedAcross.
  destruct (n =? 0) eqn:H0; [lia|]. destruct (n <? 0) eqn:H1; [lia|].
  unfold mapLoop.
  destruct (0 >? pos) eqn:H2; [lia|].
  destruct (pos <=? 0 + 0) eqn:H3.
  - assert (pos = 0) as -> by lia. simpl.
    destruct (assoc <? 0) eqn:H4; simpl; split; try done; lia.
  - assert (pos =? 0 = false) as -> by lia. simpl. split; [lia|done].
Qed.

(** Mapping a step through [StepMap.offset(n)] moves both ends by [n]. *)
Lemma stepMap_offset s n :
  0 < n -> stepOk s -> stepMap s (offset n) = Some (shiftStep n s).
Proof.
  intros Hn [Hf Ht]. unfold stepMap, shiftStep.
  destruct (mapResult_offset n (step_from s) 1 Hn Hf) as [Hpf ->].
  destruct (mapResult_offset n (step_to s) (-1) Hn ltac:(lia)) as [Hpt _].
  rewrite Hpf, Hpt. simpl. rewrite andb_false_r. f_equal. f_equal.
  destruct (step_to s =? 0) eqn:Hz; simpl; lia.
Qed.

Lemma stepLoop_shift (tr : Transaction OuterDoc) steps n :
  0 < n -> Forall stepOk steps ->
  LiquidView.stepLoop tr steps (offset n) = stepAll tr (shiftStep n <$> steps).
Proof.
  intros Hn Hall. revert tr. induction Hall as [|s steps Hs Hall IH]; intros tr; simpl.
  - done.
  - rewrite stepMap_offset by done. destruct (step tr (shiftStep n s)); simpl; [apply IH|done].
Qed.

Lemma stepAll_app (tr : Transaction OuterDoc) a b :
  stepAll tr (a ++ b) = (do tr' <- stepAll tr a; stepAll tr' b).
Proof.
  revert tr. induction a as [|s a IH]; intros tr; simpl; [done|].
  destruct (step tr s); simpl; [apply IH|done].
Qed.

Lemma transactionLoop_shift (tr : Transaction OuterDoc) trs n :
  0 < n -> Forall stepOk (allSteps trs) ->
  LiquidView.transactionLoop tr trs (offset n) = stepAll tr (shiftStep n <$> allSteps trs).
Proof.
  intros Hn. unfold allSteps. revert tr.
  induction trs as [|t trs IH]; intros tr Hall; simpl in *; [done|].
  apply Forall_app in Hall as [Ht Hall].
  rewrite fmap_app, stepAll_app, stepLoop_shift by done.
  destruct (stepAll tr (shiftStep n <$> tr_steps t)); simpl; [by apply IH|done].
Qed.

(** The steps a transaction holds after [stepAll], and what it keeps. *)
Lemma stepAll_steps (tr tr' : Transaction OuterDoc) steps :
  stepAll tr steps = Ok tr' ->
  tr_steps tr' = tr_steps tr ++ steps /\ tr_before tr' = tr_before tr
  /\ tr_curSelection tr' = tr_curSelection tr /\ tr_meta tr' = tr_meta tr.
Proof.
  revert tr. induction steps as [|s steps IH]; intros tr; simpl.
  - intros [= <-]. by rewrite app_nil_r.
  - unfold step at 1. destruct (stepApply s (tr_doc tr)) as [d|]; simpl; [|done].
    intros Hall. apply IH in Hall as (-> & -> & -> & ->). simpl.
    by rewrite <- app_assoc.
Qed.

End Propagation.

(** ** The sample document reflects inner edits *)

Section SampleFacts.
Import PM Sample.

Lemma inlineSize_nonneg c : 0 <= inlineSize c.
Proof.
  destruct c as [t|n|name]; simpl; [apply textSize_nonneg| |lia].
  unfold nodeSize. pose proof (fragSize_nonneg (content n)). lia.
Qed.

Lemma childrenSize_nonneg cs : 0 <= childrenSize cs.
Proof.
  induction cs as [|c cs IH]; simpl; [lia|]. pose proof (inlineSize_nonneg c). lia.
Qed.

Lemma childrenSize_app a b : childrenSize (a ++ b) = childrenSize a + childrenSize b.
Proof. induction a as [|c a IH]; simpl; lia. Qed.

Lemma findChildLoop_skip pre rest i cur pos :
  cur + childrenSize pre < pos ->
  findChildLoop (pre ++ rest) i cur pos
  = findChildLoop rest (i + List.length pre) (cur + childrenSize pre) pos.
Proof.
  revert i cur. induction pre as [|c pre IH]; intros i cur Hlt; simpl in *.
  - f_equal; lia.
  - pose proof (childrenSize_nonneg pre) as Hp.
    rewrite bool_decide_eq_false_2 by lia.
    rewrite IH by lia. f_equal; lia.
Qed.

(** A position inside a nested node resolves to that node and to the
    position counted from the node's start. *)
Lemma placeOf_nested pre n post x :
  0 <= x <= fragSize (content n) ->
  placeOf (pre ++ INode n :: post) (1 + childrenSize pre + 1 + x)
  = InNode (List.length pre) n x.
Proof.
  intros Hx. unfold placeOf.
  pose proof (childrenSize_nonneg pre) as Hp. pose proof (childrenSize_nonneg post) as Hq.
  rewrite childrenSize_app. simpl. unfold nodeSize.
  assert ((1 + childrenSize pre + 1 + x =? 0)
          || (1 + childrenSize pre + 1 + x
              =? 2 + (childrenSize pre + (2 + fragSize (content n) + childrenSize post)))
          = false) as ->.
  { apply orb_false_iff. split; lia. }
  unfold findChild. rewrite childrenSize_app. simpl. unfold nodeSize.
  rewrite !bool_decide_eq_false_2 by lia.
  rewrite findChildLoop_skip by lia. simpl. unfold nodeSize.
  rewrite bool_decide_eq_true_2 by lia.
  rewrite bool_decide_eq_false_2 by lia.
  assert (1 + childrenSize pre + 1 + x - 1 - (0 + childrenSize pre) =? 0 = false) as -> by lia.
  assert ((pre ++ INode n :: post) !! List.length pre = Some (INode n)) as Hl
    by (by apply list_lookup_middle).
  unfold Doc. rewrite Hl. f_equal. lia.
Qed.

(** On the sample document, the step [dispatchInner] sends out changes the
    bound node as the inner step changed the inner document: the outer
    position is the inner position plus the node's start plus 1. *)
Lemma sample_reflects_inner_step pre n post s :
  0 <= step_from s <= fragSize (content n) ->
  0 <= step_to s <= fragSize (content n) ->
  let getPos := 1 + childrenSize pre in
  stepApply (shiftStep (getPos + 1) s) (pre ++ INode n :: post)
  = (do n' <- stepApplyNode s n; Ok (pre ++ INode n' :: post)).
Proof.
  intros Hf Ht getPos. simpl. unfold applyStep, getPos. simpl.
  pose proof (childrenSize_nonneg pre) as Hp. pose proof (childrenSize_nonneg post) as Hq.
  assert (forall x, 0 <= x <= fragSize (content n) ->
            inRange (pre ++ INode n :: post) (x + (1 + childrenSize pre + 1)) = true) as Hin.
  { intros x Hx. unfold inRange. rewrite childrenSize_app. simpl. unfold nodeSize.
    apply andb_true_iff. split; lia. }
  rewrite !Hin by done. simpl.
  replace (step_from s + (1 + childrenSize pre + 1))
    with (1 + childrenSize pre + 1 + step_from s) by lia.
  replace (step_to s + (1 + childrenSize pre + 1))
    with (1 + childrenSize pre + 1 + step_to s) by lia.
  rewrite !placeOf_nested by done.
  rewrite bool_decide_eq_true_2 by done. unfold stepApplyNode.
  destruct (replace n (step_from s) (step_to s) (step_slice s)) as [n'|]; simpl; [|done].
  f_equal. unfold Doc.
  pose proof (insert_app_r pre (INode n :: post) 0 (INode n')) as Hi.
  rewrite Nat.add_0_r in Hi. exact Hi.
Qed.

End SampleFacts.

(** ** The controller's contracts *)

Section Claims.
Import PM.
Context {OuterDoc : Type} `{Document OuterDoc}.

Abbreviation View := LiquidView.LiquidView.
Abbreviation Host := (LiquidView.Host OuterDoc).

Lemma sameMarkup_refl n : sameMarkup n n = true.
Proof. unfold sameMarkup. by rewrite !bool_decide_eq_true_2. Qed.

(** The transaction [update] builds carries the tag. *)
Lemma updateTr_tagged n st start endA endB tr :
  LiquidView.updateTr n st start endA endB = Ok tr ->
  truthy (getMeta tr "fromOutside") = true.
Proof.
  unfold LiquidView.updateTr.
  destruct (nodeSlice n start endA) as [sl|]; [|done]. simpl.
  destruct (trReplace (newTr st) start endB sl) as [tr0|]; [|done]. simpl.
  intros [= <-]. unfold getMeta. simpl. by rewrite lookup_insert_eq.
Qed.

Lemma dispatchInner_tagged_trace (h : Host) tr (v : View) :
  truthy (getMeta tr "fromOutside") = true ->
  LiquidView.trace (LiquidView.dispatchInner h tr v) = [].
Proof.
  intros Hm. unfold LiquidView.dispatchInner.
  destruct (LiquidView.innerView v) as [st|]; [|done].
  destruct (applyTransaction st tr) as [[st' trs]|]; [|done].
  by rewrite Hm.
Qed.

(** [update] never calls the outer view. *)
Lemma update_trace_nil (h : Host) n (v : View) :
  LiquidView.trace (LiquidView.update h n v) = [].
Proof.
  unfold LiquidView.update.
  destruct (sameMarkup n (LiquidView.node v)); [|done]. simpl.
  destruct (LiquidView.innerView v) as [st|]; [|done].
  destruct (findDiffStart _ _ _) as [start|]; [|done].
  destruct (findDiffEnd _ _) as [[endA endB]|]; [|done].
  destruct (LiquidView.widen start endA endB) as [endA' endB'].
  destruct (LiquidView.updateTr n st start endA' endB') as [tr|] eqn:Htr; [|done].
  pose proof (dispatchInner_tagged_trace h tr
                {| LiquidView.node := n; LiquidView.innerView := Some st |}
                (updateTr_tagged _ _ _ _ _ _ Htr)) as Ht.
  by destruct (LiquidView.value _).
Qed.

(** [update] once the range and the transaction are known. *)
Lemma update_steps (h : Host) n (v : View) st start endA endB tr sel :
  LiquidView.innerView v = Some st ->
  sameMarkup n (LiquidView.node v) = true ->
  findDiffStart (content n) (content (st_doc st)) 0 = Some start ->
  findDiffEnd (content n) (content (st_doc st)) = Some (endA, endB) ->
  LiquidView.updateTr n st start (LiquidView.widen start endA endB).1
    (LiquidView.widen start endA endB).2 = Ok tr ->
  tr_before tr = st_doc st ->
  trSelection tr = Ok sel ->
  LiquidView.update h n v
  = LiquidView.returns true
      {| LiquidView.node := n;
         LiquidView.innerView := Some {| st_doc := tr_doc tr; st_selection := sel |} |} [].
Proof.
  intros Hv Hsm Hs He Htr Hb Hsel. unfold LiquidView.update.
  rewrite Hsm. simpl. rewrite Hv, Hs, He.
  destruct (LiquidView.widen start endA endB) as [endA' endB']. simpl in Htr.
  rewrite Htr.
  assert (applyTransaction st tr
          = Ok ({| st_doc := tr_doc tr; st_selection := sel |}, [tr])) as Happ.
  { unfold applyTransaction, applyInner.
    rewrite bool_decide_eq_true_2 by done. simpl. by rewrite Hsel. }
  erewrite dispatchInner_tagged; [done|done|by eapply updateTr_tagged|exact Happ].
Qed.

(** C10.  [update] is atomic on failure: given a node whose markup differs
    from the bound node's, it returns [false] with the controller (bound
    node and inner state) unchanged and without any call on the outer
    view. *)
Theorem update_refuses_atomically (h : Host) n (v : View) :
  sameMarkup n (LiquidView.node v) = false ->
  LiquidView.update h n v = LiquidView.returns false v [].
Proof. intros Hsm. unfold LiquidView.update. by rewrite Hsm. Qed.

(** C4.  [update] returns [false] exactly when the markup of the new node
    differs from the bound node's; with compatible markup it rebinds to the
    new node and returns [true], also when the contents already agree and
    nothing is dispatched. *)
Theorem update_result (h : Host) n (v : View) :
  (forall st, LiquidView.innerView v = Some st -> stateOk st) ->
  (LiquidView.value (LiquidView.update h n v) = Ok false
   <-> sameMarkup n (LiquidView.node v) = false)
  /\ (sameMarkup n (LiquidView.node v) = true ->
      LiquidView.value (LiquidView.update h n v) = Ok true
      /\ LiquidView.node (LiquidView.view (LiquidView.update h n v)) = n)
  /\ (sameMarkup n (LiquidView.node v) = true ->
      (forall st, LiquidView.innerView v = Some st -> content (st_doc st) = content n) ->
      LiquidView.update h n v
      = LiquidView.returns true
          {| LiquidView.node := n; LiquidView.innerView := LiquidView.innerView v |} []).
Proof.
  intros Hok.
  assert (sameMarkup n (LiquidView.node v) = true ->
          LiquidView.value (LiquidView.update h n v) = Ok true
          /\ LiquidView.node (LiquidView.view (LiquidView.update h n v)) = n) as Htrue.
  { intros Hsm. destruct (LiquidView.innerView v) as [st|] eqn:Hv.
    - destruct (update_sync h n v st Hv Hsm (Hok st eq_refl)) as (st' & -> & _). done.
    - unfold LiquidView.update. by rewrite Hsm, Hv. }
  split; [|split; [done|]].
  - split.
    + intros Hval. destruct (sameMarkup n (LiquidView.node v)) eqn:Hsm; [|done].
      destruct (Htrue eq_refl) as [Hv _]. congruence.
    + intros Hsm. unfold LiquidView.update. by rewrite Hsm.
  - intros Hsm Hsame. unfold LiquidView.update. rewrite Hsm. simpl.
    destruct (LiquidView.innerView v) as [st|] eqn:Hv; [|done].
    by rewrite <- (Hsame st eq_refl), findDiffStart_refl.
Qed.

(** C1.  Content sync: for a compatible new node, whatever the inner
    document held before, after [update] the inner document's content is
    the new node's content. *)
Theorem update_content_sync (h : Host) n (v : View) st :
  LiquidView.innerView v = Some st ->
  sameMarkup n (LiquidView.node v) = true ->
  stateOk st ->
  normalized (content n) ->
  normalized (content (st_doc st)) ->
  exists st',
    LiquidView.update h n v
    = LiquidView.returns true
        {| LiquidView.node := n; LiquidView.innerView := Some st' |} []
    /\ content (st_doc st') = content n.
Proof.
  intros Hv Hsm Hok HnA HnB.
  destruct (update_sync h n v st Hv Hsm Hok) as (st' & Hu & _ & _ & _ & Heq).
  exists st'. split; [done|]. by apply Heq.
Qed.

(** C8.  Overlap correction in [update]: when the forward diff start lies
    beyond [min(endA, endB)], both ends grow by
    [overlap = start - min(endA, endB)]; then [start <= endA] and
    [start <= endB], both ends stay within their contents, and [update]
    replaces [start, endB) of the inner document by the new node's slice
    [start, endA): the inner document it leaves is the result of that
    replace, it has the new content, and [update] returns [true]. *)
Theorem overlap_correction (h : Host) n (v : View) st start endA endB :
  LiquidView.innerView v = Some st ->
  sameMarkup n (LiquidView.node v) = true ->
  findDiffStart (content n) (content (st_doc st)) 0 = Some start ->
  findDiffEnd (content n) (content (st_doc st)) = Some (endA, endB) ->
  start > Z.min endA endB ->
  stateOk st ->
  let overlap := start - Z.min endA endB in
  LiquidView.widen start endA endB = (endA + overlap, endB + overlap)
  /\ start <= endA + overlap <= fragSize (content n)
  /\ start <= endB + overlap <= fragSize (content (st_doc st))
  /\ exists tr sel,
       LiquidView.updateTr n st start (endA + overlap) (endB + overlap) = Ok tr
       /\ trSelection tr = Ok sel
       /\ LiquidView.update h n v
          = LiquidView.returns true
              {| LiquidView.node := n;
                 LiquidView.innerView :=
                   Some {| st_doc := tr_doc tr; st_selection := sel |} |} []
       /\ chars (content (tr_doc tr)) = chars (content n)
       /\ (normalized (content n) -> normalized (content (st_doc st)) ->
           content (tr_doc tr) = content n).
Proof.
  intros Hv Hsm Hs He Hgt Hok overlap.
  pose proof (diff_range_sound _ _ _ _ _ Hs He) as Hd.
  assert (LiquidView.widen start endA endB = (endA + overlap, endB + overlap)) as Hw.
  { unfold LiquidView.widen. fold overlap.
    assert (overlap >? 0 = true) as -> by (subst overlap; lia). done. }
  rewrite Hw in Hd. destruct Hd as (H0 & HA & HB & Hre).
  split; [done|]. split; [done|]. split; [done|].
  destruct (updateTr_spec n st start _ _ H0 HA HB Hok)
    as (tr & sel & Htr & _ & Hbefore & _ & Hch & Hsel & _ & Hnorm).
  exists tr, sel. split; [done|]. split; [done|]. split.
  { apply (update_steps h n v st start endA endB tr sel); try done. by rewrite Hw. }
  rewrite Hch, Hre. split; [done|].
  intros HnA HnB. apply normalized_chars_inj; [by apply Hnorm|done|].
  by rewrite Hch, Hre.
Qed.

(** C2.  No propagation loop: a transaction tagged ['fromOutside'] updates
    the inner state and makes no call on the outer view. *)
Theorem fromOutside_stays_inside (h : Host) tr (v : View) :
  truthy (getMeta tr "fromOutside") = true ->
  LiquidView.trace (LiquidView.dispatchInner h tr v) = []
  /\ (forall st st' trs,
        LiquidView.innerView v = Some st ->
        applyTransaction st tr = Ok (st', trs) ->
        LiquidView.dispatchInner h tr v
        = LiquidView.returns tt
            {| LiquidView.node := LiquidView.node v;
               LiquidView.innerView := Some st' |} []).
Proof.
  intros Hm. split; [by apply dispatchInner_tagged_trace|].
  intros st st' trs Hv Ha. by eapply dispatchInner_tagged.
Qed.

(** When the outer document rejects a mapped step, [dispatchInner] throws
    after the inner state was updated, and nothing is dispatched. *)
Lemma dispatchInner_outer_throws (h : Host) tr (v : View) st st' trs e :
  LiquidView.innerView v = Some st ->
  truthy (getMeta tr "fromOutside") = false ->
  applyTransaction st tr = Ok (st', trs) ->
  0 <= LiquidView.getPos h ->
  Forall stepOk (allSteps trs) ->
  stepAll (newTr (LiquidView.outerState h))
    (shiftStep (LiquidView.getPos h + 1) <$> allSteps trs) = Throw e ->
  LiquidView.dispatchInner h tr v
  = LiquidView.throws e
      {| LiquidView.node := LiquidView.node v; LiquidView.innerView := Some st' |} [].
Proof.
  intros Hv Hm Ha Hp Hok Hall.
  unfold LiquidView.dispatchInner. rewrite Hv, Ha, Hm. simpl.
  rewrite transactionLoop_shift by (done || lia). by rewrite Hall.
Qed.

(** C3.  Propagation: for a transaction without the tag, every step of
    every applied transaction is mapped through the offset map of
    [getPos() + 1], which moves both of its ends by that amount; the mapped
    steps are added to one outer transaction in their order, and that
    transaction is dispatched on the outer view exactly when it holds a
    step. *)
Theorem dispatchInner_propagates (h : Host) tr (v : View) st st' trs outerTr :
  LiquidView.innerView v = Some st ->
  truthy (getMeta tr "fromOutside") = false ->
  applyTransaction st tr = Ok (st', trs) ->
  0 <= LiquidView.getPos h ->
  Forall stepOk (allSteps trs) ->
  stepAll (newTr (LiquidView.outerState h))
    (shiftStep (LiquidView.getPos h + 1) <$> allSteps trs) = Ok outerTr ->
  Forall (fun s => stepMap s (offset (LiquidView.getPos h + 1))
                   = Some (shiftStep (LiquidView.getPos h + 1) s)) (allSteps trs)
  /\ tr_steps outerTr = shiftStep (LiquidView.getPos h + 1) <$> allSteps trs
  /\ tr_before outerTr = st_doc (LiquidView.outerState h)
  /\ LiquidView.dispatchInner h tr v
     = LiquidView.returns tt
         {| LiquidView.node := LiquidView.node v; LiquidView.innerView := Some st' |}
         (if docChanged outerTr then [LiquidView.OuterDispatch outerTr] else [])
  /\ (docChanged outerTr = true <-> allSteps trs <> []).
Proof.
  intros Hv Hm Ha Hp Hok Hall.
  split.
  { eapply Forall_impl; [exact Hok|]. intros s Hs. apply stepMap_offset; [lia|done]. }
  destruct (stepAll_steps _ _ _ Hall) as (Hsteps & Hbefore & _). simpl in *.
  split; [done|]. split; [done|]. split.
  - unfold LiquidView.dispatchInner. rewrite Hv, Ha, Hm. simpl.
    rewrite transactionLoop_shift by (done || lia). rewrite Hall.
    by destruct (docChanged outerTr).
  - unfold docChanged. rewrite Hsteps.
    destruct (allSteps trs); simpl; split; done.
Qed.

(** C5.  Escape: with a collapsed inner selection at the edge that matches
    the direction, [maybeEscape] sets the outer selection to a cursor at
    the node's start (direction -1) or at its start plus its size
    (direction +1), focuses the outer view and returns [true]. *)
Theorem maybeEscape_at_edge (h : Host) (v : View) st dir :
  LiquidView.innerView v = Some st ->
  sel_empty (st_selection st) = true ->
  (dir = -1 /\ sel_from (st_selection st) = 0
   \/ dir = 1 /\ sel_to (st_selection st) = nodeSize (LiquidView.node v) - 2) ->
  0 <= LiquidView.getPos h ->
  LiquidView.getPos h + nodeSize (LiquidView.node v)
    <= contentSize (st_doc (LiquidView.outerState h)) ->
  let target := if bool_decide (dir = -1) then LiquidView.getPos h
                else LiquidView.getPos h + nodeSize (LiquidView.node v) in
  let tr := setSelection (newTr (LiquidView.outerState h))
              {| anchor := target; head := target |} in
  LiquidView.maybeEscape h dir v
  = LiquidView.returns true v [LiquidView.OuterDispatch tr; LiquidView.OuterFocus]
  /\ trSelection tr = Ok {| anchor := target; head := target |}
  /\ tr_steps tr = [] /\ tr_doc tr = st_doc (LiquidView.outerState h)
  /\ LiquidView.length v = nodeSize (LiquidView.node v) - 2.
Proof.
  intros Hv He Hedge Hp Hr target tr.
  pose proof (fragSize_nonneg (content (LiquidView.node v))) as Hsz.
  unfold nodeSize in *.
  split; [|done].
  unfold LiquidView.maybeEscape, LiquidView.length. rewrite Hv, He. simpl.
  destruct Hedge as [[-> Hf]|[-> Ht]]; simpl.
  - rewrite Hf. simpl. unfold TextSelection_create, resolveCheck.
    rewrite !bool_decide_eq_true_2 by (unfold nodeSize in *; lia). simpl.
    subst tr target. simpl. by rewrite Z.add_0_r.
  - unfold nodeSize. rewrite Ht, Z.eqb_refl. simpl.
    unfold TextSelection_create, resolveCheck.
    rewrite !bool_decide_eq_true_2 by (unfold nodeSize in *; lia). simpl. done.
Qed.

(** C6.  No escape: with a range selection, or a selection away from the
    edge that matches the direction, [maybeEscape] returns [false], leaves
    the controller as it was and makes no call on the outer view. *)
Theorem maybeEscape_not_handled (h : Host) (v : View) st dir :
  LiquidView.innerView v = Some st ->
  dir = -1 \/ dir = 1 ->
  (sel_empty (st_selection st) = false
   \/ dir = -1 /\ sel_from (st_selection st) <> 0
   \/ dir = 1 /\ sel_to (st_selection st) <> nodeSize (LiquidView.node v) - 2) ->
  LiquidView.maybeEscape h dir v = LiquidView.returns false v [].
Proof.
  intros Hv Hdir Hc. unfold LiquidView.maybeEscape, LiquidView.length. rewrite Hv.
  destruct (sel_empty (st_selection st)) eqn:He; simpl; [|done].
  destruct Hc as [Hc|[[-> Hf]|[-> Ht]]]; [done| |]; simpl.
  - by assert (sel_from (st_selection st) =? 0 = false) as -> by lia.
  - by assert (sel_to (st_selection st) =? nodeSize (LiquidView.node v) - 2 = false)
      as -> by lia.
Qed.

(** C7.  Removal: [maybeRemove] acts exactly when the inner length is 0.
    It then selects the node's outer range, deletes that range, asks for
    scrolling into view, dispatches this on the outer view and returns
    [true]; otherwise it does nothing and its result is not truthy. *)
Theorem maybeRemove_empty_node (h : Host) (v : View) :
  let state := LiquidView.outerState h in
  let from := LiquidView.getPos h in
  let to := from + nodeSize (LiquidView.node v) in
  (LiquidView.length v = 0 ->
   0 <= from -> to <= contentSize (st_doc state) ->
   fitsTrivially (st_doc state) from to Slice_empty = true ->
   forall doc', stepApply (ReplaceStep from to Slice_empty) (st_doc state) = Ok doc' ->
   exists tr,
     LiquidView.maybeRemove h v
     = LiquidView.returns (Some true) v [LiquidView.OuterDispatch tr]
     /\ tr_before tr = st_doc state /\ tr_doc tr = doc'
     /\ tr_steps tr = [ReplaceStep from to Slice_empty]
     /\ tr_curSelection tr = {| anchor := from; head := to |}
     /\ tr_curSelectionFor tr = 0%nat
     /\ selectionSet tr = true /\ scrolledIntoView tr = true)
  /\ (LiquidView.length v <> 0 ->
      LiquidView.maybeRemove h v = LiquidView.returns None v []
      /\ LiquidView.handled None = false).
Proof.
  intros state from to. split.
  - intros Hlen H0 Hr Hfit doc' Hstep.
    unfold LiquidView.maybeRemove. rewrite Hlen. simpl.
    fold state from to.
    unfold LiquidView.length in Hlen.
    unfold TextSelection_create, trDelete, trReplace, replaceStep, resolveCheck. simpl.
    rewrite !bool_decide_eq_true_2 by lia. simpl.
    rewrite (bool_decide_eq_false_2 (to = from)) by lia. simpl.
    rewrite (bool_decide_eq_false_2 (from = to)) by lia. simpl.
    rewrite !bool_decide_eq_true_2 by lia. simpl.
    rewrite Hfit. simpl. unfold step. simpl. rewrite Hstep. simpl.
    eexists. split; [done|]. simpl. repeat split; done.
  - intros Hlen. unfold LiquidView.maybeRemove.
    by assert (LiquidView.length v =? 0 = false) as -> by lia.
Qed.

End Claims.

(** ** The arrow-key commands *)

Section ArrowClaims.
Import PM Arrow.
Context {D : Type} `{Document D} `{Navigation D}.

Lemma sideOf_keySide dir : sideOf dir = keySide dir.
Proof.
  unfold sideOf, keySide.
  repeat case_bool_decide; simpl; try done; tauto.
Qed.

Lemma stepsOver_test dir state :
  stepsOver dir state
  <-> sel_empty (st_selection state) && isNearInlineBlock state (sideOf dir) = true.
Proof.
  rewrite sideOf_keySide. unfold stepsOver, isNearInlineBlock, keySide.
  rewrite andb_true_iff.
  case_bool_decide; simpl.
  - destruct (nodeBeforeAt _ _) as [nd|]; split.
    + intros [He (nd' & [= <-] & -> & ->)]. done.
    + intros [He Hn]. apply andb_true_iff in Hn as [Ht Hi].
      split; [done|]. exists nd. by destruct (isText nd).
    + intros [_ (nd' & ? & _)]; done.
    + intros [_ ?]; done.
  - destruct (nodeAfterAt _ _) as [nd|]; split.
    + intros [He (nd' & [= <-] & -> & ->)]. done.
    + intros [He Hn]. apply andb_true_iff in Hn as [Ht Hi].
      split; [done|]. exists nd. by destruct (isText nd).
    + intros [_ (nd' & ? & _)]; done.
    + intros [_ ?]; done.
Qed.

(** C9.  An arrow command (left and up: side -1, right and down: side +1)
    returns [true] exactly when the outer selection is collapsed and the
    node next to the cursor on that side exists, is not text and is inline;
    it then dispatches a transaction that sets the selection found from the
    position one step further on that side and scrolls into view.  In every
    other case it returns [false] and dispatches nothing. *)
Theorem arrowHandler_steps_over (dir : string) (state : EditorState D) newSel :
  let side := keySide dir in
  let targetPos := head (st_selection state) + side in
  (stepsOver dir state ->
   0 <= targetPos <= contentSize (st_doc state)
   /\ findFrom (st_doc state) targetPos side true = Some newSel) ->
  (returned (arrowHandler dir state) = Ok true <-> stepsOver dir state)
  /\ (stepsOver dir state ->
      let tr := scrollIntoView (setSelection (newTr state) newSel) in
      arrowHandler dir state = {| returned := Ok true; dispatched := [tr] |}
      /\ trSelection tr = Ok newSel /\ scrolledIntoView tr = true
      /\ tr_steps tr = [])
  /\ (~ stepsOver dir state ->
      arrowHandler dir state = {| returned := Ok false; dispatched := [] |}).
Proof.
  intros side targetPos Hhost.
  assert (stepsOver dir state ->
          arrowHandler dir state
          = {| returned := Ok true;
               dispatched := [scrollIntoView (setSelection (newTr state) newSel)] |}) as Hyes.
  { intros Hc. destruct (Hhost Hc) as [Hr Hf].
    apply stepsOver_test in Hc. unfold arrowHandler. rewrite Hc.
    rewrite sideOf_keySide. fold side targetPos.
    unfold resolveCheck. rewrite !bool_decide_eq_true_2 by lia. simpl.
    by rewrite Hf. }
  assert (~ stepsOver dir state ->
          arrowHandler dir state = {| returned := Ok false; dispatched := [] |}) as Hno.
  { intros Hc. rewrite stepsOver_test in Hc. apply not_true_is_false in Hc.
    unfold arrowHandler. by rewrite Hc. }
  split; [|split; [|done]].
  - split.
    + intros Hret. destruct (sel_empty (st_selection state)
                             && isNearInlineBlock state (sideOf dir)) eqn:Hc.
      * by apply stepsOver_test.
      * assert (~ stepsOver dir state) as Hn by (rewrite stepsOver_test; congruence).
        rewrite (Hno Hn) in Hret. done.
    + intros Hc. by rewrite (Hyes Hc).
  - intros Hc tr. split; [by apply Hyes|]. done.
Qed.

End ArrowClaims.

(** ** The contracts on the sample document *)

Section Witnesses.
Import PM Sample.

Ltac sample :=
  unfold stateOk, selIn, nodeSize, state0, stateAA, view0, view1, viewEmpty, host0,
    hostEmpty, doc0, docEmpty, liquid, txt, cursor in *;
  simpl in *.

Ltac evaluated := vm_compute; repeat split; discriminate.

Lemma update_refuses_atomically_witness :
  sameMarkup image (LiquidView.node view0) = false
  /\ LiquidView.update host0 image view0 = LiquidView.returns false view0 [].
Proof.
  split; [reflexivity|].
  apply (update_refuses_atomically host0 image view0). reflexivity.
Defined.

Lemma state0_ok : stateOk state0.
Proof. evaluated. Defined.

Lemma update_result_witness :
  LiquidView.value (LiquidView.update host0 (liquid [txt "xyz"]) view0) = Ok true
  /\ LiquidView.node (LiquidView.view (LiquidView.update host0 (liquid [txt "xyz"]) view0))
     = liquid [txt "xyz"].
Proof.
  apply (update_result host0 (liquid [txt "xyz"]) view0).
  - intros st [= <-]. exact state0_ok.
  - reflexivity.
Defined.

Lemma update_content_sync_witness :
  exists st',
    LiquidView.update host0 (liquid [txt "xyz"]) view0
    = LiquidView.returns true
        {| LiquidView.node := liquid [txt "xyz"]; LiquidView.innerView := Some st' |} []
    /\ content (st_doc st') = [txt "xyz"].
Proof.
  apply (update_content_sync host0 (liquid [txt "xyz"]) view0 state0).
  - reflexivity.
  - reflexivity.
  - exact state0_ok.
  - sample. repeat split; discriminate.
  - sample. repeat split; discriminate.
Defined.

Lemma overlap_correction_witness :
  LiquidView.widen 2 1 0 = (3, 2)
  /\ 2 <= 3 <= 3 /\ 2 <= 2 <= 2
  /\ exists tr sel,
       LiquidView.updateTr (liquid [txt "aaa"]) stateAA 2 3 2 = Ok tr
       /\ trSelection tr = Ok sel
       /\ LiquidView.update host0 (liquid [txt "aaa"]) viewAA
          = LiquidView.returns true
              {| LiquidView.node := liquid [txt "aaa"];
                 LiquidView.innerView :=
                   Some {| st_doc := tr_doc tr; st_selection := sel |} |} []
       /\ chars (content (tr_doc tr)) = chars [txt "aaa"]
       /\ (normalized [txt "aaa"] -> normalized [txt "aa"] ->
           content (tr_doc tr) = [txt "aaa"]).
Proof.
  apply (overlap_correction host0 (liquid [txt "aaa"]) viewAA stateAA 2 1 0).
  - reflexivity.
  - reflexivity.
  - reflexivity.
  - reflexivity.
  - simpl. lia.
  - evaluated.
Defined.

(** The same case evaluated: [update] turns the inner [aa] into [aaa]. *)
Example update_aa_aaa :
  LiquidView.update host0 (liquid [txt "aaa"]) viewAA
  = LiquidView.returns true
      {| LiquidView.node := liquid [txt "aaa"];
         LiquidView.innerView :=
           Some {| st_doc := liquid [txt "aaa"]; st_selection := cursor 0 |} |} [].
Proof. reflexivity. Qed.

Lemma fromOutside_stays_inside_witness :
  truthy (getMeta taggedEdit "fromOutside") = true
  /\ tr_steps taggedEdit = [ReplaceStep 1 1 {| slice_content := [txt "Q"] |}]
  /\ LiquidView.trace (LiquidView.dispatchInner host0 taggedEdit view0) = []
  /\ LiquidView.dispatchInner host0 taggedEdit view0
     = LiquidView.returns tt
         {| LiquidView.node := liquid [txt "xy"];
            LiquidView.innerView :=
              Some {| st_doc := liquid [txt "xQy"]; st_selection := cursor 0 |} |} [].
Proof.
  split; [reflexivity|]. split; [reflexivity|].
  destruct (fromOutside_stays_inside host0 taggedEdit view0) as [Htrace Hstate].
  - reflexivity.
  - split; [exact Htrace|].
    apply (Hstate state0 {| st_doc := liquid [txt "xQy"]; st_selection := cursor 0 |}
             [taggedEdit]); reflexivity.
Defined.

Lemma dispatchInner_propagates_witness :
  tr_steps typedOuter = [ReplaceStep 5 5 {| slice_content := [txt "Q"] |}]
  /\ LiquidView.dispatchInner host0 typed view0
     = LiquidView.returns tt
         {| LiquidView.node := liquid [txt "xy"];
            LiquidView.innerView :=
              Some {| st_doc := liquid [txt "xQy"]; st_selection := cursor 0 |} |}
         [LiquidView.OuterDispatch typedOuter].
Proof.
  destruct (dispatchInner_propagates host0 typed view0 state0
              {| st_doc := liquid [txt "xQy"]; st_selection := cursor 0 |}
              [typed] typedOuter) as (_ & Hs & _ & Hd & _).
  - reflexivity.
  - reflexivity.
  - reflexivity.
  - evaluated.
  - repeat constructor; simpl; lia.
  - reflexivity.
  - split; [exact Hs|exact Hd].
Defined.

Lemma maybeEscape_at_edge_witness :
  LiquidView.maybeEscape host0 (-1) view0
  = LiquidView.returns true view0
      [LiquidView.OuterDispatch
         (setSelection (newTr (LiquidView.outerState host0)) (cursor 3));
       LiquidView.OuterFocus].
Proof.
  apply (maybeEscape_at_edge host0 view0 state0 (-1)).
  - reflexivity.
  - reflexivity.
  - left. split; reflexivity.
  - evaluated.
  - evaluated.
Defined.

Lemma maybeEscape_not_handled_witness :
  LiquidView.maybeEscape host0 (-1) view1 = LiquidView.returns false view1 [].
Proof.
  apply (maybeEscape_not_handled host0 view1
           {| st_doc := liquid [txt "xy"]; st_selection := cursor 1 |} (-1)).
  - reflexivity.
  - left. reflexivity.
  - right. left. split; [reflexivity|]. evaluated.
Defined.

Lemma maybeRemove_empty_node_witness :
  exists tr,
    LiquidView.maybeRemove hostEmpty viewEmpty
    = LiquidView.returns (Some true) viewEmpty [LiquidView.OuterDispatch tr]
    /\ tr_before tr = docEmpty /\ tr_doc tr = [IText (txt "abc")]
    /\ tr_steps tr = [ReplaceStep 3 5 Slice_empty]
    /\ tr_curSelection tr = {| anchor := 3; head := 5 |}
    /\ tr_curSelectionFor tr = 0%nat
    /\ selectionSet tr = true /\ scrolledIntoView tr = true.
Proof.
  apply (proj1 (maybeRemove_empty_node hostEmpty viewEmpty)).
  - reflexivity.
  - evaluated.
  - evaluated.
  - reflexivity.
  - reflexivity.
Defined.

Lemma arrowHandler_steps_over_witness :
  Arrow.arrowHandler "right" {| st_doc := doc0; st_selection := cursor 3 |}
  = {| Arrow.returned := Ok true;
       Arrow.dispatched :=
         [scrollIntoView
            (setSelection (newTr {| st_doc := doc0; st_selection := cursor 3 |})
               (cursor 4))] |}.
Proof.
  destruct (arrowHandler_steps_over "right"
              {| st_doc := doc0; st_selection := cursor 3 |} (cursor 4))
    as (_ & Hyes & _).
  - intros _. split; [evaluated|reflexivity].
  - apply Hyes. split; [reflexivity|].
    exists {| Arrow.isText := false; Arrow.isInline := true |}.
    split; [reflexivity|]. split; reflexivity.
Defined.

End Witnesses.

(** * Further properties of the controller *)

Section InnerDispatch.
Import PM.
Context {OuterDoc : Type} `{Document OuterDoc}.

Abbreviation View := LiquidView.LiquidView.
Abbreviation Host := (LiquidView.Host OuterDoc).

Lemma applyTransaction_inv st tr st' trs :
  applyTransaction st tr = Ok (st', trs) ->
  trs = [tr] /\ tr_before tr = st_doc st /\ st_doc st' = tr_doc tr
  /\ trSelection tr = Ok (st_selection st').
Proof.
  unfold applyTransaction, applyInner.
  case_bool_decide as Hb; simpl; [|done].
  destruct (trSelection tr) as [sel|]; simpl; [|done].
  intros [= <- <-]. done.
Qed.

Lemma stepLoop_nil (outerTr : Transaction OuterDoc) m :
  LiquidView.stepLoop outerTr [] m = Ok outerTr.
Proof. done. Qed.

Lemma dispatchInner_stepless (h : Host) tr (v : View) st st' trs :
  LiquidView.innerView v = Some st ->
  applyTransaction st tr = Ok (st', trs) ->
  tr_steps tr = [] ->
  LiquidView.dispatchInner h tr v
  = LiquidView.returns tt
      {| LiquidView.node := LiquidView.node v; LiquidView.innerView := Some st' |} [].
Proof.
  intros Hv Ha Hs. destruct (applyTransaction_inv _ _ _ _ Ha) as (-> & _).
  unfold LiquidView.dispatchInner. rewrite Hv, Ha.
  destruct (truthy (getMeta tr "fromOutside")); simpl; [done|].
  by rewrite Hs.
Qed.

(** X1.  An inner transaction without steps (a move of the inner cursor),
    tagged or not, updates the inner state and makes no call on the outer
    view, whatever the node's position is. *)
Theorem stepless_transaction_stays_inside (h : Host) tr (v : View) st st' trs :
  LiquidView.innerView v = Some st ->
  applyTransaction st tr = Ok (st', trs) ->
  tr_steps tr = [] ->
  LiquidView.dispatchInner h tr v
  = LiquidView.returns tt
      {| LiquidView.node := LiquidView.node v; LiquidView.innerView := Some st' |} [].
Proof. apply dispatchInner_stepless. Qed.

(** X2.  A transaction built against another document than the inner
    state's is rejected with a [RangeError] before anything changes: the
    controller is as before and no call is made. *)
Theorem mismatched_transaction_rejected (h : Host) tr (v : View) st :
  LiquidView.innerView v = Some st ->
  tr_before tr <> st_doc st ->
  LiquidView.dispatchInner h tr v = LiquidView.throws RangeError v [].
Proof.
  intros Hv Hne. unfold LiquidView.dispatchInner, applyTransaction, applyInner.
  rewrite Hv. by rewrite bool_decide_eq_false_2.
Qed.

(** X3.  When the outer document rejects a mapped step, [dispatchInner]
    throws that error after the inner state was updated; nothing is
    dispatched, so the inner document is ahead of the outer one. *)
Theorem outer_rejection_leaves_inner_updated (h : Host) tr (v : View) st st' trs e :
  LiquidView.innerView v = Some st ->
  truthy (getMeta tr "fromOutside") = false ->
  applyTransaction st tr = Ok (st', trs) ->
  0 <= LiquidView.getPos h ->
  Forall stepOk (allSteps trs) ->
  stepAll (newTr (LiquidView.outerState h))
    (shiftStep (LiquidView.getPos h + 1) <$> allSteps trs) = Throw e ->
  LiquidView.dispatchInner h tr v
  = LiquidView.throws e
      {| LiquidView.node := LiquidView.node v; LiquidView.innerView := Some st' |} [].
Proof. apply dispatchInner_outer_throws. Qed.

Lemma setSelection_ok (h : Host) (v : View) st from to :
  LiquidView.innerView v = Some st ->
  0 <= from <= fragSize (content (st_doc st)) ->
  0 <= to <= fragSize (content (st_doc st)) ->
  LiquidView.setSelection h from to v
  = LiquidView.returns tt
      {| LiquidView.node := LiquidView.node v;
         LiquidView.innerView :=
           Some {| st_doc := st_doc st; st_selection := {| anchor := from; head := to |} |} |}
      [LiquidView.InnerFocus].
Proof.
  intros Hv Hf Ht. unfold LiquidView.setSelection. rewrite Hv.
  unfold TextSelection_create, resolveCheck. simpl.
  rewrite !bool_decide_eq_true_2 by lia. simpl.
  assert ((if bool_decide (to = from) then Ok tt
           else if negb (bool_decide (to >= 0)
                         && bool_decide (to <= fragSize (content (st_doc st))))
                then Throw RangeError else Ok tt) = Ok tt) as ->.
  { case_bool_decide; [done|]. by rewrite !bool_decide_eq_true_2 by lia. }
  simpl.
  erewrite dispatchInner_stepless; [done|exact Hv| |done].
  unfold applyTransaction, applyInner. simpl.
  by rewrite bool_decide_eq_true_2.
Qed.

(** X4.  [setSelection(from, to)] with both positions in the inner
    document sets the inner selection to that range, keeps the inner
    document, focuses the inner view and makes no call on the outer view. *)
Theorem setSelection_in_range (h : Host) (v : View) st from to :
  LiquidView.innerView v = Some st ->
  0 <= from <= fragSize (content (st_doc st)) ->
  0 <= to <= fragSize (content (st_doc st)) ->
  LiquidView.setSelection h from to v
  = LiquidView.returns tt
      {| LiquidView.node := LiquidView.node v;
         LiquidView.innerView :=
           Some {| st_doc := st_doc st; st_selection := {| anchor := from; head := to |} |} |}
      [LiquidView.InnerFocus].
Proof. apply setSelection_ok. Qed.

(** X5.  [setSelection(from, to)] with a position outside the inner
    document throws a [RangeError]; the selection is not changed and the
    inner view is not focused. *)
Theorem setSelection_out_of_range (h : Host) (v : View) st from to :
  LiquidView.innerView v = Some st ->
  (from < 0 \/ fragSize (content (st_doc st)) < from
   \/ to <> from /\ (to < 0 \/ fragSize (content (st_doc st)) < to)) ->
  LiquidView.setSelection h from to v = LiquidView.throws RangeError v [].
Proof.
  intros Hv Hout. unfold LiquidView.setSelection. rewrite Hv.
  unfold TextSelection_create, resolveCheck. simpl.
  destruct (bool_decide (from >= 0) && bool_decide (from <= fragSize (content (st_doc st))))
    eqn:Hfrom; simpl; [|done].
  apply andb_true_iff in Hfrom as [H1 H2].
  apply bool_decide_eq_true in H1. apply bool_decide_eq_true in H2.
  destruct Hout as [?|[?|[Hne Hto]]]; [lia|lia|].
  rewrite (bool_decide_eq_false_2 (to = from)) by done.
  assert (bool_decide (to >= 0) && bool_decide (to <= fragSize (content (st_doc st)))
          = false) as ->; [|done].
  apply andb_false_iff. destruct Hto; [left|right]; apply bool_decide_eq_false; lia.
Qed.

(** X6.  The constructor binds the node: the inner document is the node
    itself with the cursor at 0, inside the document; the inner view is
    focused and the outer view is not called. *)
Theorem constructor_binds_node (h : Host) n :
  let st := {| st_doc := n; st_selection := {| anchor := 0; head := 0 |} |} in
  LiquidView.construct h n
  = LiquidView.returns tt
      {| LiquidView.node := n; LiquidView.innerView := Some st |}
      [LiquidView.InnerFocus]
  /\ stateOk st.
Proof.
  intros st. split; [apply construct_binds|].
  pose proof (fragSize_nonneg (content n)). unfold stateOk, selIn. simpl. lia.
Qed.

(** X7.  Entering and leaving: after [selectNode()], [maybeEscape(-1)]
    leaves the node on its left: it dispatches a cursor at the node's outer
    start, focuses the outer view and returns [true]. *)
Theorem selectNode_then_escape_left (h : Host) (v : View) st :
  LiquidView.innerView v = Some st ->
  0 <= LiquidView.getPos h <= contentSize (st_doc (LiquidView.outerState h)) ->
  let entered := LiquidView.view (LiquidView.selectNode h v) in
  LiquidView.selectNode h v
  = LiquidView.returns tt entered [LiquidView.InnerFocus]
  /\ LiquidView.maybeEscape h (-1) entered
     = LiquidView.returns true entered
         [LiquidView.OuterDispatch
            (setSelection (newTr (LiquidView.outerState h))
               {| anchor := LiquidView.getPos h; head := LiquidView.getPos h |});
          LiquidView.OuterFocus].
Proof.
  intros Hv Hp entered. subst entered.
  pose proof (fragSize_nonneg (content (st_doc st))) as Hsz.
  unfold LiquidView.selectNode.
  rewrite (setSelection_ok h v st 0 0 Hv) by lia. simpl.
  split; [done|].
  unfold LiquidView.maybeEscape. simpl.
  unfold TextSelection_create, resolveCheck. rewrite Z.add_0_r.
  rewrite !bool_decide_eq_true_2 by lia. simpl. done.
Qed.

End InnerDispatch.

Section UpdateFurther.
Import PM.
Context {OuterDoc : Type} `{Document OuterDoc}.
Local Arguments mapPos : simpl never.

Abbreviation View := LiquidView.LiquidView.
Abbreviation Host := (LiquidView.Host OuterDoc).

Lemma mapPos_before start oldSize newSize pos assoc :
  pos < start -> mapPos [(start, oldSize, newSize)] pos assoc = pos.
Proof.
  intros Hlt. unfold mapPos, mapResult. simpl.
  assert (start >? pos = true) as -> by lia. simpl. lia.
Qed.

(** A selection in front of the replaced range is not moved. *)
Lemma updateTr_selection_before n st start endA endB tr sel :
  LiquidView.updateTr n st start endA endB = Ok tr ->
  trSelection tr = Ok sel ->
  anchor (st_selection st) < start -> head (st_selection st) < start ->
  sel = st_selection st.
Proof.
  unfold LiquidView.updateTr.
  destruct (nodeSlice n start endA) as [sl|]; simpl; [|done].
  unfold trReplace, replaceStep. simpl.
  destruct (bool_decide (start = endB) && bool_decide (sliceSize sl = 0)); simpl.
  { intros [= <-]. unfold trSelection. simpl. by intros [= <-]. }
  destruct (resolveCheck (st_doc st) start); simpl; [|done].
  destruct (resolveCheck (st_doc st) endB); simpl; [|done].
  unfold step. simpl.
  destruct (stepApplyNode (ReplaceStep start endB sl) (st_doc st)) as [d|]; simpl; [|done].
  intros [= <-]. unfold trSelection, mapSelection, getMap. simpl.
  intros Hsel Ha Hh. rewrite !mapPos_before in Hsel by done.
  destruct (resolveCheck d (head (st_selection st))); simpl in Hsel; [|done].
  destruct (resolveCheck d (anchor (st_selection st))); simpl in Hsel; [|done].
  injection Hsel as <-. by destruct (st_selection st).
Qed.

(** Where [update] can fail. *)
Lemma onlyRange_bind {A B} (r : result A) (k : A -> result B) :
  onlyRange r -> (forall a, onlyRange (k a)) -> onlyRange (rbind r k).
Proof. destruct r; simpl; auto. Qed.

Lemma resolve_onlyRange doc pos : onlyRange (resolve doc pos).
Proof. unfold resolve. destruct (negb _); [done|]. by destruct (findIndex _ _). Qed.

Lemma resolveCheck_onlyRange {D} `{Document D} (d : D) pos : onlyRange (resolveCheck d pos).
Proof. unfold resolveCheck. by destruct (negb _). Qed.

Lemma replace_onlyRange doc from to slice : onlyRange (replace doc from to slice).
Proof.
  unfold replace. apply onlyRange_bind; [apply resolve_onlyRange|]. intros rf.
  apply onlyRange_bind; [apply resolve_onlyRange|]. intros rt.
  by destruct (bool_decide _).
Qed.

Lemma updateTr_onlyRange n st start endA endB :
  onlyRange (LiquidView.updateTr n st start endA endB).
Proof.
  unfold LiquidView.updateTr. apply onlyRange_bind.
  { unfold nodeSlice. destruct (bool_decide _); [done|].
    apply onlyRange_bind; [apply resolve_onlyRange|]. intros _.
    apply onlyRange_bind; [apply resolve_onlyRange|]. done. }
  intros sl. apply onlyRange_bind; [|done].
  unfold trReplace. apply onlyRange_bind.
  { unfold replaceStep. destruct (_ && _); [done|].
    apply onlyRange_bind; [apply resolveCheck_onlyRange|]. intros _.
    apply onlyRange_bind; [apply resolveCheck_onlyRange|]. done. }
  intros [s|]; [|done]. unfold step. apply onlyRange_bind; [|done].
  simpl. apply replace_onlyRange.
Qed.

Lemma applyTransaction_onlyRange st (tr : Transaction Node) :
  onlyRange (applyTransaction st tr).
Proof.
  unfold applyTransaction. apply onlyRange_bind; [|done].
  unfold applyInner. destruct (negb _); [done|].
  apply onlyRange_bind; [|done].
  unfold trSelection. destruct (bool_decide _); [|done].
  unfold mapSelection.
  apply onlyRange_bind; [apply resolveCheck_onlyRange|]. intros _.
  apply onlyRange_bind; [apply resolveCheck_onlyRange|]. done.
Qed.

(** The controller after [dispatchInner] once the inner state accepted the
    transaction, whatever happens on the outer side. *)
Lemma dispatchInner_view (h : Host) tr (v : View) st st' trs :
  LiquidView.innerView v = Some st ->
  applyTransaction st tr = Ok (st', trs) ->
  LiquidView.view (LiquidView.dispatchInner h tr v)
  = {| LiquidView.node := LiquidView.node v; LiquidView.innerView := Some st' |}.
Proof.
  intros Hv Ha. unfold LiquidView.dispatchInner. rewrite Hv, Ha.
  destruct (negb _); [|done].
  destruct (LiquidView.transactionLoop _ _ _) as [otr|]; [|done].
  by destruct (docChanged otr).
Qed.

(** X8.  [update] never calls the outer view: for every node and every
    controller state its trace of calls is empty, so a change coming from
    the outer document is never sent back to it. *)
Theorem update_never_calls_outer (h : Host) n (v : View) :
  LiquidView.trace (LiquidView.update h n v) = [].
Proof. apply update_trace_nil. Qed.

(** X9.  For a compatible node, also when the fragments are not in joined
    form, [update] leaves the inner document with the node's characters and
    marks, with the markup it had, and with the inner selection inside it. *)
Theorem update_syncs_characters (h : Host) n (v : View) st :
  LiquidView.innerView v = Some st ->
  sameMarkup n (LiquidView.node v) = true ->
  stateOk st ->
  exists st',
    LiquidView.update h n v
    = LiquidView.returns true
        {| LiquidView.node := n; LiquidView.innerView := Some st' |} []
    /\ stateOk st'
    /\ sameMarkup (st_doc st') (st_doc st) = true
    /\ chars (content (st_doc st')) = chars (content n).
Proof.
  intros Hv Hsm Hok.
  destruct (update_sync h n v st Hv Hsm Hok) as (st' & Hu & Hok' & Hsm' & Hch & _).
  by exists st'.
Qed.

(** X10.  [update] is idempotent: after [update(node)], a second
    [update(node)] returns [true] and changes nothing. *)
Theorem update_idempotent (h h' : Host) n (v : View) st :
  LiquidView.innerView v = Some st ->
  sameMarkup n (LiquidView.node v) = true ->
  stateOk st ->
  normalized (content n) ->
  normalized (content (st_doc st)) ->
  let v' := LiquidView.view (LiquidView.update h n v) in
  LiquidView.update h' n v' = LiquidView.returns true v' [].
Proof.
  intros Hv Hsm Hok HnA HnB v'.
  destruct (update_sync h n v st Hv Hsm Hok) as (st' & Hu & _ & _ & _ & Heq).
  subst v'. rewrite Hu. simpl.
  unfold LiquidView.update. simpl. rewrite sameMarkup_refl. simpl.
  by rewrite (Heq HnA HnB), findDiffStart_refl.
Qed.

(** X11.  A selection that lies in front of the first difference is not
    moved by [update]. *)
Theorem update_keeps_selection_before_change (h : Host) n (v : View) st start :
  LiquidView.innerView v = Some st ->
  sameMarkup n (LiquidView.node v) = true ->
  stateOk st ->
  findDiffStart (content n) (content (st_doc st)) 0 = Some start ->
  anchor (st_selection st) < start ->
  head (st_selection st) < start ->
  exists doc',
    LiquidView.update h n v
    = LiquidView.returns true
        {| LiquidView.node := n;
           LiquidView.innerView :=
             Some {| st_doc := doc'; st_selection := st_selection st |} |} [].
Proof.
  intros Hv Hsm Hok Hs Ha Hh.
  destruct (findDiffEnd_is_Some _ _ _ Hs) as [[endA endB] He].
  pose proof (diff_range_sound _ _ _ _ _ Hs He) as Hd.
  destruct (LiquidView.widen start endA endB) as [endA' endB'] eqn:Hw.
  destruct Hd as (H0 & HA & HB & _).
  destruct (updateTr_spec n st start endA' endB' H0 HA HB Hok)
    as (tr & sel & Htr & _ & Hbefore & _ & _ & Hsel & _).
  pose proof (updateTr_selection_before _ _ _ _ _ _ _ Htr Hsel Ha Hh) as ->.
  exists (tr_doc tr).
  apply (update_steps h n v st start endA endB tr); try done.
  by rewrite Hw.
Qed.

(** X12.  The only exception [update] can raise is a [RangeError]: the
    backward scan never returns [null] when the forward scan found a
    difference, and replacing the range never fails as a transform. *)
Theorem update_only_range_errors (h : Host) n (v : View) :
  onlyRange (LiquidView.value (LiquidView.update h n v)).
Proof.
  unfold LiquidView.update.
  destruct (negb _); [done|]. simpl.
  destruct (LiquidView.innerView v) as [st|] eqn:Hv; [|done].
  destruct (findDiffStart _ _ _) as [start|] eqn:Hs; [|done].
  destruct (findDiffEnd_is_Some _ _ _ Hs) as [[endA endB] He]. rewrite He.
  destruct (LiquidView.widen start endA endB) as [endA' endB'].
  pose proof (updateTr_onlyRange n st start endA' endB') as Hu.
  destruct (LiquidView.updateTr n st start endA' endB') as [tr|] eqn:Htr; [|done].
  assert (onlyRange (LiquidView.value
            (LiquidView.dispatchInner h tr
               {| LiquidView.node := n; LiquidView.innerView := Some st |}))) as Hd.
  { unfold LiquidView.dispatchInner. simpl.
    pose proof (applyTransaction_onlyRange st tr) as Ha.
    destruct (applyTransaction st tr) as [[st' trs]|]; [|done].
    by rewrite (updateTr_tagged _ _ _ _ _ _ Htr). }
  by destruct (LiquidView.value _).
Qed.

(** X13.  The echo of an inner edit is absorbed: once the inner state has
    applied a transaction, [update] with a compatible node whose content is
    the inner document's content rebinds to that node, builds no
    transaction and makes no call. *)
Theorem echo_is_absorbed (h h' : Host) tr (v : View) st st' trs n' :
  LiquidView.innerView v = Some st ->
  applyTransaction st tr = Ok (st', trs) ->
  sameMarkup n' (LiquidView.node v) = true ->
  content n' = content (st_doc st') ->
  LiquidView.update h' n' (LiquidView.view (LiquidView.dispatchInner h tr v))
  = LiquidView.returns true
      {| LiquidView.node := n'; LiquidView.innerView := Some st' |} [].
Proof.
  intros Hv Ha Hsm Hc. rewrite (dispatchInner_view h tr v st st' trs Hv Ha).
  unfold LiquidView.update. simpl. rewrite Hsm. simpl.
  by rewrite Hc, findDiffStart_refl.
Qed.

Lemma widen_facts start endA endB :
  let '(endA', endB') := LiquidView.widen start endA endB in
  (start <= Z.min endA endB -> (endA', endB') = (endA, endB))
  /\ start <= endA' /\ start <= endB'
  /\ endA <= endA' /\ endB <= endB'
  /\ endA' - endB' = endA - endB.
Proof.
  unfold LiquidView.widen.
  destruct (start - Z.min endA endB >? 0) eqn:Ho; repeat split; lia.
Qed.

(** X14.  The overlap correction always orders the range: both ends are at
    or behind [start], neither end moves back, and the difference of the
    two ends (the change in length) is kept. *)
Theorem widen_orders_range start endA endB :
  let '(endA', endB') := LiquidView.widen start endA endB in
  (start <= Z.min endA endB -> (endA', endB') = (endA, endB))
  /\ start <= endA' /\ start <= endB'
  /\ endA <= endA' /\ endB <= endB'
  /\ endA' - endB' = endA - endB.
Proof. apply widen_facts. Qed.

End UpdateFurther.

Section KeysFurther.
Import PM.
Context {OuterDoc : Type} `{Document OuterDoc}.
Local Arguments mapPos : simpl never.

Abbreviation View := LiquidView.LiquidView.
Abbreviation Host := (LiquidView.Host OuterDoc).

Lemma sel_empty_cursor p : sel_empty {| anchor := p; head := p |} = true.
Proof. unfold sel_empty, sel_from, sel_to. simpl. lia. Qed.

(** X15.  [maybeEscape] never edits: for every direction and state the
    controller is left as it was, and whatever is sent to the outer view
    holds no step and only sets a collapsed selection on the outer document
    as it is. *)
Theorem maybeEscape_never_edits (h : Host) dir (v : View) :
  LiquidView.view (LiquidView.maybeEscape h dir v) = v
  /\ Forall (movesCursorOnly (LiquidView.outerState h))
       (LiquidView.trace (LiquidView.maybeEscape h dir v)).
Proof.
  unfold LiquidView.maybeEscape.
  destruct (LiquidView.innerView v) as [st|]; [|by split].
  destruct (_ || _); [by split|].
  unfold TextSelection_create.
  destruct (resolveCheck _ _); simpl; [|by split].
  rewrite bool_decide_eq_true_2 by done. simpl.
  split; [done|]. repeat constructor; simpl. apply sel_empty_cursor.
Qed.

(** X16.  A stale position: with a collapsed inner selection on the
    matching edge, but a target outside the outer document, [maybeEscape]
    throws a [RangeError]; nothing is dispatched and the outer view is not
    focused. *)
Theorem maybeEscape_stale_position (h : Host) (v : View) st dir :
  LiquidView.innerView v = Some st ->
  sel_empty (st_selection st) = true ->
  (dir < 0 /\ sel_from (st_selection st) = 0
   \/ 0 <= dir /\ sel_to (st_selection st) = nodeSize (LiquidView.node v) - 2) ->
  let target := LiquidView.getPos h
                + (if dir <? 0 then 0 else nodeSize (LiquidView.node v)) in
  (target < 0 \/ contentSize (st_doc (LiquidView.outerState h)) < target) ->
  LiquidView.maybeEscape h dir v = LiquidView.throws RangeError v [].
Proof.
  intros Hv He Hedge target Hout.
  unfold LiquidView.maybeEscape, LiquidView.length. rewrite Hv, He. simpl.
  assert ((if dir <? 0 then sel_from (st_selection st) =? 0
           else sel_to (st_selection st) =? nodeSize (LiquidView.node v) - 2) = true) as ->.
  { destruct Hedge as [[Hd Hf]|[Hd Ht]].
    - assert (dir <? 0 = true) as -> by lia. lia.
    - assert (dir <? 0 = false) as -> by lia. lia. }
  simpl. fold target. unfold TextSelection_create, resolveCheck.
  assert (bool_decide (target >= 0)
          && bool_decide (target <= contentSize (st_doc (LiquidView.outerState h)))
          = false) as ->; [|done].
  apply andb_false_iff. destruct Hout; [left|right]; apply bool_decide_eq_false; lia.
Qed.

(** X17.  After the removal the outer cursor sits where the node was: the
    selection of the transaction [maybeRemove] dispatches, set on the node's
    range and mapped through the deletion, is the collapsed cursor at the
    node's start. *)
Theorem maybeRemove_leaves_cursor (h : Host) (v : View) doc' :
  let state := LiquidView.outerState h in
  let from := LiquidView.getPos h in
  let to := from + nodeSize (LiquidView.node v) in
  LiquidView.length v = 0 ->
  0 <= from -> to <= contentSize (st_doc state) ->
  fitsTrivially (st_doc state) from to Slice_empty = true ->
  stepApply (ReplaceStep from to Slice_empty) (st_doc state) = Ok doc' ->
  from <= contentSize doc' ->
  exists tr,
    LiquidView.maybeRemove h v
    = LiquidView.returns (Some true) v [LiquidView.OuterDispatch tr]
    /\ tr_doc tr = doc'
    /\ trSelection tr = Ok {| anchor := from; head := from |}.
Proof.
  intros state from to Hlen H0 Hr Hfit Hstep Hfrom.
  unfold LiquidView.maybeRemove. rewrite Hlen. simpl.
  fold state from to.
  unfold LiquidView.length in Hlen.
  unfold TextSelection_create, trDelete, trReplace, replaceStep, resolveCheck. simpl.
  rewrite !bool_decide_eq_true_2 by lia. simpl.
  rewrite (bool_decide_eq_false_2 (to = from)) by lia. simpl.
  rewrite (bool_decide_eq_false_2 (from = to)) by lia. simpl.
  rewrite !bool_decide_eq_true_2 by lia. simpl.
  rewrite Hfit. simpl. unfold step. simpl. rewrite Hstep. simpl.
  eexists. split; [done|]. simpl. split; [done|].
  unfold trSelection, mapSelection, getMap, resolveCheck. simpl.
  assert (mapPos [(from, to - from, sliceSize Slice_empty)] to 1 = from) as ->.
  { unfold mapPos, mapResult, sliceSize. simpl.
    assert (from >? to = false) as -> by lia.
    assert (to <=? from + (to - from) = true) as -> by lia. simpl.
    assert (to - from =? 0 = false) as -> by lia.
    assert (to =? from = false) as -> by lia.
    assert (to =? from + (to - from) = true) as -> by lia. simpl. lia. }
  assert (mapPos [(from, to - from, sliceSize Slice_empty)] from 1 = from) as ->.
  { unfold mapPos, mapResult, sliceSize. simpl.
    assert (from >? from = false) as -> by lia.
    assert (from <=? from + (to - from) = true) as -> by lia. simpl.
    assert (to - from =? 0 = false) as -> by lia.
    rewrite Z.eqb_refl. simpl. lia. }
  by rewrite !bool_decide_eq_true_2 by lia.
Qed.

(** X18.  A stale position: when the node is empty but its range does not
    lie in the outer document, [maybeRemove] throws a [RangeError] and
    dispatches nothing. *)
Theorem maybeRemove_stale_position (h : Host) (v : View) :
  let from := LiquidView.getPos h in
  let to := from + nodeSize (LiquidView.node v) in
  LiquidView.length v = 0 ->
  (from < 0 \/ contentSize (st_doc (LiquidView.outerState h)) < to) ->
  LiquidView.maybeRemove h v = LiquidView.throws RangeError v [].
Proof.
  intros from to Hlen Hout.
  unfold LiquidView.maybeRemove. rewrite Hlen. simpl. fold from to.
  unfold LiquidView.length in Hlen.
  unfold TextSelection_create, resolveCheck.
  destruct (bool_decide (from >= 0)
            && bool_decide (from <= contentSize (st_doc (LiquidView.outerState h))))
    eqn:Hf; simpl; [|done].
  apply andb_true_iff in Hf as [H1 H2].
  apply bool_decide_eq_true in H1. apply bool_decide_eq_true in H2.
  rewrite (bool_decide_eq_false_2 (to = from)) by (subst to; lia).
  assert (bool_decide (to >= 0)
          && bool_decide (to <= contentSize (st_doc (LiquidView.outerState h)))
          = false) as ->; [|done].
  apply andb_false_iff. right. apply bool_decide_eq_false. lia.
Qed.

End KeysFurther.

Section ArrowFurther.
Import PM Arrow.
Context {D : Type} `{Document D} `{Navigation D}.

(** X19.  An arrow command never edits the document: it dispatches at most
    one transaction, which holds no step, is built on the state's document,
    sets the selection and asks to scroll; it dispatches nothing unless it
    returns [true]. *)
Theorem arrowHandler_never_edits (dir : string) (state : EditorState D) :
  Forall (fun tr => tr_steps tr = [] /\ tr_before tr = st_doc state
                    /\ tr_doc tr = st_doc state
                    /\ selectionSet tr = true /\ scrolledIntoView tr = true)
    (dispatched (arrowHandler dir state))
  /\ (List.length (dispatched (arrowHandler dir state)) <= 1)%nat
  /\ (returned (arrowHandler dir state) <> Ok true ->
      dispatched (arrowHandler dir state) = []).
Proof.
  unfold arrowHandler.
  destruct (_ && _); [|by repeat split; auto].
  destruct (resolveCheck _ _); [|by repeat split; auto].
  destruct (findFrom _ _ _ _); simpl; [|by repeat split; auto].
  split; [by repeat constructor|]. split; [lia|]. done.
Qed.

(** X21.  The vertical keys act as the horizontal ones: [up] runs the
    command of [left] and [down] the command of [right], with the same
    neighbour test, the same target and the same result; any other name acts
    as [right]. *)
Theorem vertical_keys_act_as_horizontal (state : EditorState D) :
  arrowHandler "up" state = arrowHandler "left" state
  /\ arrowHandler "down" state = arrowHandler "right" state
  /\ forall dir, dir <> "left"%string -> dir <> "up"%string ->
       arrowHandler dir state = arrowHandler "right" state.
Proof.
  split; [done|]. split; [done|].
  intros dir Hl Hu. unfold arrowHandler, sideOf.
  by rewrite !(bool_decide_eq_false_2 (dir = _)) by done.
Qed.

End ArrowFurther.

Section CursorAtEnd.
Import PM.
Context {OuterDoc : Type} `{Document OuterDoc}.
Local Arguments mapPos : simpl never.

Abbreviation View := LiquidView.LiquidView.
Abbreviation Host := (LiquidView.Host OuterDoc).

Lemma mapPos_end from to size pos :
  from <= to -> to <= pos -> 0 <= size ->
  mapPos [(from, to - from, size)] pos 1 = pos + size - (to - from).
Proof.
  intros Hft Htp Hs. unfold mapPos, mapResult. simpl.
  assert (from >? pos = false) as -> by lia.
  destruct (pos <=? from + (to - from)) eqn:Hle; simpl; [|lia].
  assert (pos = to) as -> by lia.
  destruct (to - from =? 0) eqn:Hz; simpl; [lia|].
  assert (to =? from = false) as -> by lia.
  assert (to =? from + (to - from) = true) as -> by lia. simpl. lia.
Qed.

Lemma nodeSlice_size n from to sl :
  0 <= from -> from <= to -> to <= fragSize (content n) ->
  nodeSlice n from to = Ok sl -> sliceSize sl = to - from.
Proof.
  intros H0 Hft Ht Hsl.
  destruct (nodeSlice_spec n from to H0 Hft Ht) as (sl' & Hsl' & Hch & _).
  rewrite Hsl in Hsl'. injection Hsl' as <-.
  unfold sliceSize. rewrite <- chars_length, Hch.
  apply sub_length; try lia. rewrite chars_length. lia.
Qed.

(** A cursor at the end of the old content is mapped to the end of the new
    content. *)
Lemma updateTr_selection_end n st start endA endB tr sel :
  LiquidView.updateTr n st start endA endB = Ok tr ->
  trSelection tr = Ok sel ->
  0 <= start -> start <= endA <= fragSize (content n) ->
  start <= endB <= fragSize (content (st_doc st)) ->
  endA - endB = fragSize (content n) - fragSize (content (st_doc st)) ->
  st_selection st = {| anchor := fragSize (content (st_doc st));
                       head := fragSize (content (st_doc st)) |} ->
  sel = {| anchor := fragSize (content n); head := fragSize (content n) |}.
Proof.
  intros Htr Hsel H0 HA HB Hdelta Hcur. revert Htr Hsel.
  unfold LiquidView.updateTr.
  destruct (nodeSlice n start endA) as [sl|] eqn:Hsl; simpl; [|done].
  pose proof (nodeSlice_size n start endA sl H0 ltac:(lia) ltac:(lia) Hsl) as Hsz.
  unfold trReplace, replaceStep. simpl.
  destruct (bool_decide (start = endB) && bool_decide (sliceSize sl = 0)) eqn:Hnull; simpl.
  { apply andb_true_iff in Hnull as [He Hz].
    apply bool_decide_eq_true in He. apply bool_decide_eq_true in Hz.
    intros [= <-]. unfold trSelection. simpl. intros [= <-].
    rewrite Hcur. f_equal; lia. }
  destruct (resolveCheck (st_doc st) start); simpl; [|done].
  destruct (resolveCheck (st_doc st) endB); simpl; [|done].
  unfold step. simpl.
  destruct (stepApplyNode (ReplaceStep start endB sl) (st_doc st)) as [d|]; simpl; [|done].
  intros [= <-]. unfold trSelection, mapSelection, getMap. simpl.
  rewrite Hcur. simpl.
  rewrite !mapPos_end by (unfold sliceSize; pose proof (fragSize_nonneg (slice_content sl)); lia).
  destruct (resolveCheck d _); simpl; [|done].
  intros [= <-]. f_equal; lia.
Qed.

(** X20.  A cursor at the end of the inner document stays at the end:
    after [update] the inner selection is the cursor at the end of the new
    content. *)
Theorem update_keeps_cursor_at_end (h : Host) n (v : View) st :
  LiquidView.innerView v = Some st ->
  sameMarkup n (LiquidView.node v) = true ->
  st_selection st = {| anchor := fragSize (content (st_doc st));
                       head := fragSize (content (st_doc st)) |} ->
  exists doc',
    LiquidView.update h n v
    = LiquidView.returns true
        {| LiquidView.node := n;
           LiquidView.innerView :=
             Some {| st_doc := doc';
                     st_selection := {| anchor := fragSize (content n);
                                        head := fragSize (content n) |} |} |} [].
Proof.
  intros Hv Hsm Hcur.
  assert (stateOk st) as Hok.
  { pose proof (fragSize_nonneg (content (st_doc st))).
    unfold stateOk, selIn. rewrite Hcur. simpl. lia. }
  destruct (findDiffStart (content n) (content (st_doc st)) 0) as [start|] eqn:Hs.
  2:{ exists (st_doc st). unfold LiquidView.update. rewrite Hsm. simpl. rewrite Hv, Hs.
      apply findDiffStart_None in Hs. rewrite Hs. destruct st as [d sel]. simpl in *.
      by rewrite Hcur. }
  destruct (findDiffEnd_is_Some _ _ _ Hs) as [[endA endB] He].
  pose proof (diff_range_sound _ _ _ _ _ Hs He) as Hd.
  pose proof (widen_facts start endA endB) as Hw.
  destruct (LiquidView.widen start endA endB) as [endA' endB'] eqn:Hwe.
  destruct Hd as (H0 & HA & HB & _). destruct Hw as (_ & _ & _ & _ & _ & Hdelta).
  destruct (findDiffEnd_spec _ _ _ _ He) as (k & HeA & HeB & _).
  destruct (updateTr_spec n st start endA' endB' H0 HA HB Hok)
    as (tr & sel & Htr & _ & Hbefore & _ & _ & Hsel & _).
  pose proof (updateTr_selection_end _ _ _ _ _ _ _ Htr Hsel H0 HA HB ltac:(lia) Hcur) as ->.
  exists (tr_doc tr).
  apply (update_steps h n v st start endA endB tr); try done.
  by rewrite Hwe.
Qed.

End CursorAtEnd.

(** ** The further properties on the sample document *)

Section FurtherWitnesses.
Import PM Sample.

Ltac evaluated := vm_compute; repeat split; discriminate.

Lemma stepless_transaction_stays_inside_witness :
  LiquidView.dispatchInner host0 moved view0
  = LiquidView.returns tt
      {| LiquidView.node := liquid [txt "xy"]; LiquidView.innerView := Some stateCursor1 |} [].
Proof.
  apply (stepless_transaction_stays_inside host0 moved view0 state0 stateCursor1 [moved]);
    reflexivity.
Defined.

Lemma mismatched_transaction_rejected_witness :
  LiquidView.dispatchInner host0 foreign view0 = LiquidView.throws RangeError view0 [].
Proof.
  apply (mismatched_transaction_rejected host0 foreign view0 state0).
  - reflexivity.
  - evaluated.
Defined.

Lemma outer_rejection_leaves_inner_updated_witness :
  LiquidView.dispatchInner hostShifted erased view0
  = LiquidView.throws TransformError
      {| LiquidView.node := liquid [txt "xy"];
         LiquidView.innerView :=
           Some {| st_doc := liquid []; st_selection := cursor 0 |} |} [].
Proof.
  apply (outer_rejection_leaves_inner_updated hostShifted erased view0 state0
           {| st_doc := liquid []; st_selection := cursor 0 |} [erased]).
  - reflexivity.
  - reflexivity.
  - reflexivity.
  - evaluated.
  - repeat constructor; simpl; lia.
  - reflexivity.
Defined.

Lemma setSelection_in_range_witness :
  LiquidView.setSelection host0 1 2 view0
  = LiquidView.returns tt
      {| LiquidView.node := liquid [txt "xy"];
         LiquidView.innerView :=
           Some {| st_doc := liquid [txt "xy"];
                   st_selection := {| anchor := 1; head := 2 |} |} |}
      [LiquidView.InnerFocus].
Proof.
  apply (setSelection_in_range host0 view0 state0 1 2).
  - reflexivity.
  - evaluated.
  - evaluated.
Defined.

Lemma setSelection_out_of_range_witness :
  LiquidView.setSelection host0 0 5 view0 = LiquidView.throws RangeError view0 [].
Proof.
  apply (setSelection_out_of_range host0 view0 state0 0 5).
  - reflexivity.
  - right. right. split; [discriminate|]. right. evaluated.
Defined.

Lemma selectNode_then_escape_left_witness :
  LiquidView.maybeEscape host0 (-1) (LiquidView.view (LiquidView.selectNode host0 view1))
  = LiquidView.returns true (LiquidView.view (LiquidView.selectNode host0 view1))
      [LiquidView.OuterDispatch
         (setSelection (newTr (LiquidView.outerState host0)) (cursor 3));
       LiquidView.OuterFocus].
Proof.
  apply (selectNode_then_escape_left host0 view1 stateCursor1).
  - reflexivity.
  - evaluated.
Defined.

Lemma update_syncs_characters_witness :
  exists st',
    LiquidView.update host0 (liquid [txt "xyz"]) view0
    = LiquidView.returns true
        {| LiquidView.node := liquid [txt "xyz"]; LiquidView.innerView := Some st' |} []
    /\ stateOk st'
    /\ sameMarkup (st_doc st') (st_doc state0) = true
    /\ chars (content (st_doc st')) = chars [txt "xyz"].
Proof.
  apply (update_syncs_characters host0 (liquid [txt "xyz"]) view0 state0).
  - reflexivity.
  - reflexivity.
  - evaluated.
Defined.

Lemma update_idempotent_witness :
  LiquidView.update hostStale (liquid [txt "xyz"])
    (LiquidView.view (LiquidView.update host0 (liquid [txt "xyz"]) view0))
  = LiquidView.returns true
      (LiquidView.view (LiquidView.update host0 (liquid [txt "xyz"]) view0)) [].
Proof.
  apply (update_idempotent host0 hostStale (liquid [txt "xyz"]) view0 state0).
  - reflexivity.
  - reflexivity.
  - evaluated.
  - simpl. repeat split; discriminate.
  - simpl. repeat split; discriminate.
Defined.

Lemma update_keeps_selection_before_change_witness :
  exists doc',
    LiquidView.update host0 (liquid [txt "xyz"]) view1
    = LiquidView.returns true
        {| LiquidView.node := liquid [txt "xyz"];
           LiquidView.innerView := Some {| st_doc := doc'; st_selection := cursor 1 |} |} [].
Proof.
  apply (update_keeps_selection_before_change host0 (liquid [txt "xyz"]) view1
           stateCursor1 2).
  - reflexivity.
  - reflexivity.
  - evaluated.
  - reflexivity.
  - evaluated.
  - evaluated.
Defined.

Lemma echo_is_absorbed_witness :
  LiquidView.update host0 (liquid [txt "xQy"])
    (LiquidView.view (LiquidView.dispatchInner host0 typed view0))
  = LiquidView.returns true
      {| LiquidView.node := liquid [txt "xQy"];
         LiquidView.innerView :=
           Some {| st_doc := liquid [txt "xQy"]; st_selection := cursor 0 |} |} [].
Proof.
  apply (echo_is_absorbed host0 host0 typed view0 state0
           {| st_doc := liquid [txt "xQy"]; st_selection := cursor 0 |} [typed]
           (liquid [txt "xQy"])); reflexivity.
Defined.

Lemma widen_orders_range_witness :
  (2 <= Z.min 1 0 -> (3, 2) = (1, 0))
  /\ 2 <= 3 /\ 2 <= 2 /\ 1 <= 3 /\ 0 <= 2 /\ 3 - 2 = 1 - 0.
Proof. exact (widen_orders_range 2 1 0). Defined.

Lemma maybeEscape_stale_position_witness :
  LiquidView.maybeEscape hostStale (-1) view0 = LiquidView.throws RangeError view0 [].
Proof.
  apply (maybeEscape_stale_position hostStale view0 state0 (-1)).
  - reflexivity.
  - reflexivity.
  - left. split; [evaluated|reflexivity].
  - right. evaluated.
Defined.

Lemma maybeRemove_leaves_cursor_witness :
  exists tr,
    LiquidView.maybeRemove hostEmpty viewEmpty
    = LiquidView.returns (Some true) viewEmpty [LiquidView.OuterDispatch tr]
    /\ tr_doc tr = [IText (txt "abc")]
    /\ trSelection tr = Ok {| anchor := 3; head := 3 |}.
Proof.
  apply (maybeRemove_leaves_cursor hostEmpty viewEmpty [IText (txt "abc")]).
  - reflexivity.
  - evaluated.
  - evaluated.
  - reflexivity.
  - reflexivity.
  - evaluated.
Defined.

Lemma maybeRemove_stale_position_witness :
  LiquidView.maybeRemove hostStale viewEmpty = LiquidView.throws RangeError viewEmpty [].
Proof.
  apply (maybeRemove_stale_position hostStale viewEmpty).
  - reflexivity.
  - right. evaluated.
Defined.

Lemma arrowHandler_never_edits_witness :
  (List.length
     (Arrow.dispatched
        (Arrow.arrowHandler "right" {| st_doc := doc0; st_selection := cursor 3 |})) <= 1)%nat.
Proof.
  apply (arrowHandler_never_edits "right" {| st_doc := doc0; st_selection := cursor 3 |}).
Defined.

Lemma update_keeps_cursor_at_end_witness :
  exists doc',
    LiquidView.update host0 (liquid [txt "xyz"]) viewEnd
    = LiquidView.returns true
        {| LiquidView.node := liquid [txt "xyz"];
           LiquidView.innerView :=
             Some {| st_doc := doc';
                     st_selection :=
                       {| anchor := fragSize [txt "xyz"]; head := fragSize [txt "xyz"] |} |} |}
        [].
Proof.
  apply (update_keeps_cursor_at_end host0 (liquid [txt "xyz"]) viewEnd stateEnd);
    reflexivity.
Defined.

Lemma vertical_keys_act_as_horizontal_witness :
  Arrow.arrowHandler "up" {| st_doc := doc0; st_selection := cursor 7 |}
  = Arrow.arrowHandler "left" {| st_doc := doc0; st_selection := cursor 7 |}.
Proof.
  apply (vertical_keys_act_as_horizontal {| st_doc := doc0; st_selection := cursor 7 |}).
Defined.

End FurtherWitnesses.
